(** * ord/utils.py: flattening, diff classification and best-match search

    A shallow embedding of [flatten], [flat_deepdiff_entry],
    [get_dict_depth], [find_best_match], [parse_deepdiff] and
    [flat_list_of_lists] of [ord/utils.py], with the properties of the
    structural-diff core proved over it.

    Python dictionaries are insertion-ordered association lists with unique
    keys; [dict_of_items] is the constructor [dict(items)].  Exceptions are
    the left summand of a sum type. *)

From Stdlib Require Import List ZArith QArith String Bool Lia Arith Permutation.
From Stdlib Require Import PrimFloat FloatOps SpecFloat.
Import ListNotations.

Local Close Scope Q_scope.
Local Open Scope list_scope.

Set Warnings "-register-all".

(** ** Python values *)

(** Hashable keys: strings, integers, and tuples of keys (the flattened
    paths are tuples, and they are the keys of a flattened dictionary). *)
Inductive key : Type :=
| KStr (s : string)
| KInt (z : Z)
| KTuple (l : list key).

(** A path tuple. *)
Definition path : Type := list key.

(** JSON-like values, plus deepdiff's [NotPresent] sentinel. *)
Inductive value : Type :=
| VNone
| VBool (b : bool)
| VInt (z : Z)
| VStr (s : string)
| VNotPresent
| VDict (items : list (key * value))
| VList (elems : list value).

(** The exceptions raised by the modelled functions. *)
Inductive exn : Type :=
| AssertionError
| ValueError
| TypeError
| IndexError.

Definition result (A : Type) : Type := exn + A.

Definition ret {A} (a : A) : result A := inr a.
Definition raise {A} (e : exn) : result A := inl e.
Definition bind {A B} (m : result A) (f : A -> result B) : result B :=
  match m with
  | inl e => inl e
  | inr a => f a
  end.

Notation "x <- m ;; k" := (bind m (fun x => k))
  (at level 61, m at next level, right associativity).

(** ** Equality of keys, as [==] on hashable Python objects *)

Fixpoint key_eqb (a b : key) {struct a} : bool :=
  match a, b with
  | KStr s, KStr t => String.eqb s t
  | KInt x, KInt y => Z.eqb x y
  | KTuple l, KTuple m =>
      (fix go (l m : list key) {struct l} : bool :=
         match l, m with
         | [], [] => true
         | x :: l', y :: m' => key_eqb x y && go l' m'
         | _, _ => false
         end) l m
  | _, _ => false
  end.

Fixpoint path_eqb (p q : path) : bool :=
  match p, q with
  | [], [] => true
  | x :: p', y :: q' => key_eqb x y && path_eqb p' q'
  | _, _ => false
  end.

(** ** Dictionaries *)

Section Dict.
Context {K V : Type}.
Variable eqb : K -> K -> bool.

(** [d[k] = v]: an existing key keeps its position, a new key is appended. *)
Fixpoint dict_set (d : list (K * V)) (k : K) (v : V) : list (K * V) :=
  match d with
  | [] => [(k, v)]
  | (k', v') :: r =>
      if eqb k' k then (k', v) :: r else (k', v') :: dict_set r k v
  end.

(** [dict(items)] *)
Definition dict_of_items (items : list (K * V)) : list (K * V) :=
  fold_left (fun d kv => dict_set d (fst kv) (snd kv)) items [].

(** [d.get(k)] *)
Fixpoint dict_get (d : list (K * V)) (k : K) : option V :=
  match d with
  | [] => None
  | (k', v) :: r => if eqb k' k then Some v else dict_get r k
  end.

(** [d.keys()] *)
Definition keys (d : list (K * V)) : list K := map fst d.

(** The number of entries stored under the key [k]. *)
Definition count_key (d : list (K * V)) (k : K) : nat :=
  List.length (filter (fun kv => eqb (fst kv) k) d).
End Dict.

(** ** [flatten] *)

(** Truthiness of the [parent_key] argument: [None] and the empty tuple are
    both false. *)
Definition truthy (parent_key : option path) : bool :=
  match parent_key with
  | Some (_ :: _) => true
  | _ => false
  end.

Definition new_key_of (parent_key : option path) (k : key) : path :=
  if truthy parent_key
  then match parent_key with Some p => p ++ [k] | None => [k] end
  else [k].

(** [for k, v in enumerate(value): items.extend(f(k, v))], counting
    from [i]. *)
Fixpoint extend_enumerate {A B} (f : nat -> A -> list B) (i : nat)
  (l : list A) : list B :=
  match l with
  | [] => []
  | a :: r => f i a ++ extend_enumerate f (S i) r
  end.

(** The body of the [for key, value in dictionary.items()] loop of [flatten]:
    the items one entry adds.  A recursive call [flatten(value, new_key)] or
    [flatten({k: v}, new_key)] is written out as the loop over the callee's
    dictionary followed by the [dict(items)] of its [return]; the lemmas
    [flatten_item_dict] and [flatten_item_list] fold it back. *)
Fixpoint flatten_item (parent_key : option path) (k : key) (v : value)
  {struct v} : list (path * value) :=
  let new_key := new_key_of parent_key k in
  match v with
  | VDict items =>
      match items with
      | [] => [(new_key, VNone)]
      | _ :: _ =>
          dict_of_items path_eqb
            (flat_map
               (fun kv => flatten_item (Some new_key) (fst kv) (snd kv))
               items)
      end
  | VList elems =>
      match elems with
      | _ :: _ =>
          extend_enumerate
            (fun i v' =>
               dict_of_items path_eqb
                 (flat_map
                    (fun kv => flatten_item (Some new_key) (fst kv) (snd kv))
                    [(KInt (Z.of_nat i), v')]))
            0%nat elems
      | [] => [(new_key, VNone)]
      end
  | _ => [(new_key, v)]
  end.

(** [flatten(dictionary, parent_key)] *)
Definition flatten (dictionary : list (key * value))
  (parent_key : option path) : list (path * value) :=
  dict_of_items path_eqb
    (flat_map (fun kv => flatten_item parent_key (fst kv) (snd kv)) dictionary).

(** ** [flat_deepdiff_entry] *)

Definition dummy_header : string := "DUMMYDUMMYDUMMY".

(** [flat_deepdiff_entry(t, path_list)]; the two comprehensions build a
    dictionary, hence the [dict_of_items]. *)
Definition flat_deepdiff_entry (t : value) (path_list : path)
  : list (path * value) :=
  let path_tuple := path_list in
  match t with
  | VDict d =>
      let t1 := flatten d None in
      dict_of_items path_eqb
        (map (fun kv => (path_list ++ fst kv, snd kv)) t1)
  | VList _ =>
      let dummy_t := [(KStr dummy_header, t)] in
      let t1 := flatten dummy_t None in
      dict_of_items path_eqb
        (map (fun kv => (path_list ++ tl (fst kv), snd kv)) t1)
  | VNotPresent => [(path_tuple, VNone)]
  | _ => [(path_tuple, t)]
  end.

(** ** [find_best_match] *)

(** [itertools.permutations(pool, r)]: the [r]-length tuples of elements of
    [pool] at pairwise different positions, in lexicographic order of the
    positions.  [picks] lists every element with the pool it leaves. *)
Fixpoint picks {A} (pool : list A) : list (A * list A) :=
  match pool with
  | [] => []
  | x :: rest => (x, rest) :: map (fun p => (fst p, x :: snd p)) (picks rest)
  end.

Fixpoint permutations {A} (pool : list A) (r : nat) : list (list A) :=
  match r with
  | O => [[]]
  | S r' =>
      flat_map (fun p => map (cons (fst p)) (permutations (snd p) r'))
        (picks pool)
  end.

(** [seq[i]] on a Python sequence: a negative index counts from the end,
    an index out of range raises [IndexError]. *)
Definition getitem {A} (l : list A) (i : Z) : result A :=
  let n := Z.of_nat (List.length l) in
  let j := (if i <? 0 then i + n else i)%Z in
  if ((j <? 0) || (n <=? j))%Z then raise IndexError
  else match nth_error l (Z.to_nat j) with
       | Some a => ret a
       | None => raise IndexError
       end.

(** The distances of [find_best_match] below are Python integers, added
    and compared exactly; the same loops over any numbers, binary64 floats
    among them, are [find_best_match_with] further down. *)

(** A distance, or [math.inf]. *)
Inductive dist : Type :=
| Inf
| Fin (d : Z).

(** [match_distance < best_match_distance] *)
Definition dist_ltb (d : Z) (best : dist) : bool :=
  match best with
  | Inf => true
  | Fin b => (d <? b)%Z
  end.

(** The inner loop over [zip(indices1, match)], started at [acc]. *)
Fixpoint match_distance (distance_matrix : list (list Z))
  (pairs : list (Z * option Z)) (acc : Z) : result Z :=
  match pairs with
  | [] => ret acc
  | (i1, None) :: rest => match_distance distance_matrix rest acc
  | (i1, Some i2) :: rest =>
      row <- getitem distance_matrix i1 ;;
      d <- getitem row i2 ;;
      match_distance distance_matrix rest (acc + d)%Z
  end.

(** The outer loop over [match_space], carrying [best_match_distance] and
    [best_match_solution]. *)
Fixpoint search (indices1 : list Z) (distance_matrix : list (list Z))
  (match_space : list (list (option Z)))
  (best_match_distance : dist) (best_match_solution : option (list (option Z)))
  : result (dist * option (list (option Z))) :=
  match match_space with
  | [] => ret (best_match_distance, best_match_solution)
  | m :: rest =>
      d <- match_distance distance_matrix (combine indices1 m) 0%Z ;;
      if dist_ltb d best_match_distance
      then search indices1 distance_matrix rest (Fin d) (Some m)
      else search indices1 distance_matrix rest
             best_match_distance best_match_solution
  end.

Definition find_best_match (indices1 : list Z) (indices2 : list (option Z))
  (distance_matrix : list (list Z)) : result (list (Z * option Z)) :=
  let match_space := permutations indices2 (List.length indices1) in
  st <- search indices1 distance_matrix match_space Inf None ;;
  match snd st with
  | None => raise AssertionError
  | Some best_match_solution =>
      ret (dict_of_items Z.eqb (combine indices1 best_match_solution))
  end.

(** ** [parse_deepdiff] *)

(** A [DiffLevel] of the tree view: the two sides and the two paths
    [path(output_format='list', use_t2=False)] and [... use_t2=True]. *)
Record DiffLevel : Type := mkLevel {
  t1 : value;
  t2 : value;
  path_list_to_t1 : path;
  path_list_to_t2 : path
}.

(** A value of [dd.to_dict()]: a set of levels, or a number. *)
Inductive report_value : Type :=
| RLevels (levels : list DiffLevel)
| RNumber (x : Q).

Definition report : Type := list (string * report_value).

(** The nine accumulators, in the order of the returned tuple. *)
Record parsed : Type := mkParsed {
  deep_distance : report_value;
  paths_added : list path;
  paths_removed : list path;
  paths_altered_1 : list path;
  paths_altered_2 : list path;
  leaf_paths_added : list path;
  leaf_paths_removed : list path;
  leaf_paths_altered_1 : list path;
  leaf_paths_altered_2 : list path
}.

Definition parsed_init : parsed :=
  mkParsed (RNumber 0) [] [] [] [] [] [] [] [].

Definition is_not_present (v : value) : bool :=
  match v with
  | VNotPresent => true
  | _ => false
  end.

(** The body of [for value_altered_level in v]. *)
Definition parse_level (st : parsed) (lvl : DiffLevel) : result parsed :=
  let is_t1_none := is_not_present (t1 lvl) in
  let is_t2_none := is_not_present (t2 lvl) in
  let t1_leafs_from_root := flat_deepdiff_entry (t1 lvl) (path_list_to_t1 lvl) in
  let t2_leafs_from_root := flat_deepdiff_entry (t2 lvl) (path_list_to_t2 lvl) in
  if is_t1_none && negb is_t2_none then
    ret (mkParsed (deep_distance st)
           (paths_added st ++ [path_list_to_t2 lvl])
           (paths_removed st) (paths_altered_1 st) (paths_altered_2 st)
           (leaf_paths_added st ++ keys t2_leafs_from_root)
           (leaf_paths_removed st)
           (leaf_paths_altered_1 st) (leaf_paths_altered_2 st))
  else if negb is_t1_none && is_t2_none then
    ret (mkParsed (deep_distance st)
           (paths_added st)
           (paths_removed st ++ [path_list_to_t1 lvl])
           (paths_altered_1 st) (paths_altered_2 st)
           (leaf_paths_added st)
           (leaf_paths_removed st ++ keys t1_leafs_from_root)
           (leaf_paths_altered_1 st) (leaf_paths_altered_2 st))
  else if negb is_t1_none && negb is_t2_none then
    ret (mkParsed (deep_distance st)
           (paths_added st) (paths_removed st)
           (paths_altered_1 st ++ [path_list_to_t1 lvl])
           (paths_altered_2 st ++ [path_list_to_t2 lvl])
           (leaf_paths_added st) (leaf_paths_removed st)
           (leaf_paths_altered_1 st ++ keys t1_leafs_from_root)
           (leaf_paths_altered_2 st ++ keys t2_leafs_from_root))
  else raise ValueError.

Fixpoint parse_levels (st : parsed) (v : list DiffLevel) : result parsed :=
  match v with
  | [] => ret st
  | lvl :: rest => st' <- parse_level st lvl ;; parse_levels st' rest
  end.

Definition deep_distance_key : string := "deep_distance".

Section ParseDeepDiff.
(** [deepdiff.model.REPORT_KEYS], a constant of the deepdiff library. *)
Variable REPORT_KEYS : list string.

(** The body of [for dd_report_key, v in dd.to_dict().items()]. *)
Definition parse_item (st : parsed) (item : string * report_value)
  : result parsed :=
  let (dd_report_key, v) := item in
  if String.eqb dd_report_key deep_distance_key then
    ret (mkParsed v
           (paths_added st) (paths_removed st)
           (paths_altered_1 st) (paths_altered_2 st)
           (leaf_paths_added st) (leaf_paths_removed st)
           (leaf_paths_altered_1 st) (leaf_paths_altered_2 st))
  else if negb (existsb (String.eqb dd_report_key) REPORT_KEYS) then
    raise AssertionError
  else
    match v with
    | RLevels levels => parse_levels st levels
    | RNumber _ => raise TypeError
    end.

Fixpoint parse_items (st : parsed) (items : report) : result parsed :=
  match items with
  | [] => ret st
  | item :: rest => st' <- parse_item st item ;; parse_items st' rest
  end.

Definition parse_deepdiff (dd : report) : result parsed :=
  parse_items parsed_init dd.
End ParseDeepDiff.

(** ** Notions the properties are stated with *)

(** A leaf of [flatten]: neither a mapping nor a list. *)
Definition is_container (v : value) : bool :=
  match v with
  | VDict _ | VList _ => true
  | _ => false
  end.

(** A scalar of [flat_deepdiff_entry]: its last branch. *)
Definition is_scalar (v : value) : bool :=
  match v with
  | VDict _ | VList _ | VNotPresent => false
  | _ => true
  end.

Definition is_empty_container (v : value) : bool :=
  match v with
  | VDict [] | VList [] => true
  | _ => false
  end.

(** The keys of a Python dictionary are pairwise different, at every level. *)
Fixpoint distinct_keys (ks : list key) : bool :=
  match ks with
  | [] => true
  | k :: r => negb (existsb (key_eqb k) r) && distinct_keys r
  end.

Fixpoint wf_value (v : value) : bool :=
  match v with
  | VDict items =>
      distinct_keys (map fst items)
      && forallb (fun kv => wf_value (snd kv)) items
  | VList elems => forallb wf_value elems
  | _ => true
  end.

Definition wf_dict (d : list (key * value)) : bool := wf_value (VDict d).

(** The value found by walking [p] down from [v]: a mapping is entered by
    key, a list by position. *)
Fixpoint at_path (v : value) (p : path) : option value :=
  match p with
  | [] => Some v
  | seg :: p' =>
      match v with
      | VDict items =>
          match dict_get key_eqb items seg with
          | Some v' => at_path v' p'
          | None => None
          end
      | VList elems =>
          match seg with
          | KInt i =>
              if (i <? 0)%Z then None
              else match nth_error elems (Z.to_nat i) with
                   | Some v' => at_path v' p'
                   | None => None
                   end
          | _ => None
          end
      | _ => None
      end
  end.

(** The scalars met by an exhaustive walk of [v]. *)
Fixpoint scalar_count (v : value) : nat :=
  match v with
  | VDict items => list_sum (map (fun kv => scalar_count (snd kv)) items)
  | VList elems => list_sum (map scalar_count elems)
  | _ => 1
  end.

(** The empty containers met by an exhaustive walk of [v], [v] included. *)
Fixpoint empty_count (v : value) : nat :=
  match v with
  | VDict [] | VList [] => 1
  | VDict items => list_sum (map (fun kv => empty_count (snd kv)) items)
  | VList elems => list_sum (map empty_count elems)
  | _ => 0
  end.

(** The empty containers strictly below the top-level mapping [d]. *)
Definition empty_count_below (d : list (key * value)) : nat :=
  list_sum (map (fun kv => empty_count (snd kv)) d).

(** The leaves of [v] with their paths relative to [v], in walk order. *)
Fixpoint rel_leaves (v : value) : list (path * value) :=
  match v with
  | VDict [] | VList [] => [([], VNone)]
  | VDict items =>
      flat_map
        (fun kv => map (fun e => (fst kv :: fst e, snd e)) (rel_leaves (snd kv)))
        items
  | VList elems =>
      extend_enumerate
        (fun i v' =>
           map (fun e => (KInt (Z.of_nat i) :: fst e, snd e)) (rel_leaves v'))
        0%nat elems
  | _ => [([], v)]
  end.

(** A flattened dictionary seen as a dictionary: its keys are the tuples. *)
Definition as_dict (flat : list (path * value)) : list (key * value) :=
  map (fun e => (KTuple (fst e), snd e)) flat.

(** [m] is an ordered selection from [pool] without repetition: with the
    elements left unused it is a rearrangement of [pool], so no position of
    [pool] is taken twice. *)
Definition selection {A} (pool m : list A) : Prop :=
  exists unused, Permutation pool (m ++ unused).

(** The total cost of a match, placeholders contributing nothing; [None]
    when a needed matrix entry is missing. *)
Fixpoint cost (distance_matrix : list (list Z)) (pairs : list (Z * option Z))
  : option Z :=
  match pairs with
  | [] => Some 0%Z
  | (_, None) :: rest => cost distance_matrix rest
  | (i1, Some i2) :: rest =>
      match getitem distance_matrix i1 with
      | inr row =>
          match getitem row i2, cost distance_matrix rest with
          | inr d, Some c => Some (d + c)%Z
          | _, _ => None
          end
      | inl _ => None
      end
  end.

(** The matrix has an entry for every pair of an index of [indices1] and a
    proper index of [indices2]. *)
Definition total_on (distance_matrix : list (list Z)) (indices1 : list Z)
  (indices2 : list (option Z)) : Prop :=
  forall i1 i2, In i1 indices1 -> In (Some i2) indices2 ->
    exists row d, getitem distance_matrix i1 = inr row /\ getitem row i2 = inr d.

(** The three classes of a diff level, and the invalid fourth. *)
Inductive diff_class : Type :=
| Added
| Removed
| Altered
| Invalid.

Definition classify (lvl : DiffLevel) : diff_class :=
  match is_not_present (t1 lvl), is_not_present (t2 lvl) with
  | true, false => Added
  | false, true => Removed
  | false, false => Altered
  | true, true => Invalid
  end.

Definition is_class (c : diff_class) (lvl : DiffLevel) : bool :=
  match c, classify lvl with
  | Added, Added | Removed, Removed | Altered, Altered
  | Invalid, Invalid => true
  | _, _ => false
  end.

(** A report item that bears the [deep_distance] metric. *)
Definition bears_metric (item : string * report_value) : bool :=
  String.eqb (fst item) deep_distance_key.

Definition levels_of (item : string * report_value) : list DiffLevel :=
  match snd item with
  | RLevels levels => levels
  | RNumber _ => []
  end.

(** The diff-report entries: the levels of every report item that does not
    bear the metric, in report order. *)
Definition entries (dd : report) : list DiffLevel :=
  flat_map levels_of (filter (fun item => negb (bears_metric item)) dd).

(** Every report key other than [deep_distance] is a key of deepdiff and
    bears a set of levels. *)
Definition keys_ok (REPORT_KEYS : list string) (dd : report) : bool :=
  forallb
    (fun item =>
       bears_metric item
       || (existsb (String.eqb (fst item)) REPORT_KEYS
           && match snd item with RLevels _ => true | RNumber _ => false end))
    dd.

(** No entry has the not-present sentinel on both sides. *)
Definition sides_ok (dd : report) : bool :=
  forallb (fun lvl => negb (is_class Invalid lvl)) (entries dd).

Definition leaf_keys_t1 (lvl : DiffLevel) : list path :=
  keys (flat_deepdiff_entry (t1 lvl) (path_list_to_t1 lvl)).

Definition leaf_keys_t2 (lvl : DiffLevel) : list path :=
  keys (flat_deepdiff_entry (t2 lvl) (path_list_to_t2 lvl)).

(** The classification of §4.3 as one step: the accumulators [st] after the
    added, removed and altered levels among [levels] are recorded. *)
Definition absorb (st : parsed) (levels : list DiffLevel) : parsed :=
  let added := filter (is_class Added) levels in
  let removed := filter (is_class Removed) levels in
  let altered := filter (is_class Altered) levels in
  mkParsed (deep_distance st)
    (paths_added st ++ map path_list_to_t2 added)
    (paths_removed st ++ map path_list_to_t1 removed)
    (paths_altered_1 st ++ map path_list_to_t1 altered)
    (paths_altered_2 st ++ map path_list_to_t2 altered)
    (leaf_paths_added st ++ flat_map leaf_keys_t2 added)
    (leaf_paths_removed st ++ flat_map leaf_keys_t1 removed)
    (leaf_paths_altered_1 st ++ flat_map leaf_keys_t1 altered)
    (leaf_paths_altered_2 st ++ flat_map leaf_keys_t2 altered).

Definition with_distance (st : parsed) (v : report_value) : parsed :=
  mkParsed v
    (paths_added st) (paths_removed st)
    (paths_altered_1 st) (paths_altered_2 st)
    (leaf_paths_added st) (leaf_paths_removed st)
    (leaf_paths_altered_1 st) (leaf_paths_altered_2 st).

(** The metric the report passes through: its last [deep_distance] value. *)
Definition metric_of (dd : report) (default : report_value) : report_value :=
  last (map snd (filter bears_metric dd)) default.

(** ** [get_dict_depth] *)

(** [get_dict_depth(d)]: 0 unless [d] is a non-empty [dict]; the [max] is
    over a non-empty generator, on which [list_max] is the maximum. *)
Fixpoint get_dict_depth (d : value) : nat :=
  match d with
  | VDict ((_ :: _) as items) =>
      list_max (map (fun kv => get_dict_depth (snd kv)) items) + 1
  | _ => 0
  end.

(** ** [flat_list_of_lists] *)

(** Equality of the tuple keys [(i, j)]. *)
Definition index_eqb (a b : nat * nat) : bool :=
  Nat.eqb (fst a) (fst b) && Nat.eqb (snd a) (snd b).

(** The state of the two loops: [flat], [map_lol_to_flat] and [i_flat]. *)
Definition flat_state (A : Type) : Type :=
  (list A * list ((nat * nat) * nat) * nat)%type.

(** [for j, item in enumerate(sub_list)], counting from [j]. *)
Fixpoint flat_inner {A} (i j : nat) (sub_list : list A) (st : flat_state A)
  : flat_state A :=
  match sub_list with
  | [] => st
  | item :: rest =>
      let '(flat, map_lol_to_flat, i_flat) := st in
      flat_inner i (S j) rest
        (flat ++ [item],
         dict_set index_eqb map_lol_to_flat (i, j) i_flat,
         i_flat + 1)
  end.

(** [for i, sub_list in enumerate(lol)], counting from [i]. *)
Fixpoint flat_outer {A} (i : nat) (lol : list (list A)) (st : flat_state A)
  : flat_state A :=
  match lol with
  | [] => st
  | sub_list :: rest => flat_outer (S i) rest (flat_inner i 0 sub_list st)
  end.

Definition flat_list_of_lists {A} (lol : list (list A))
  : list A * list ((nat * nat) * nat) :=
  let '(flat, map_lol_to_flat, _) := flat_outer 0 lol ([], [], 0) in
  (flat, map_lol_to_flat).

(** ** Further notions the properties are stated with *)

(** No list occurs anywhere in [v]. *)
Fixpoint list_free (v : value) : bool :=
  match v with
  | VDict items => forallb (fun kv => list_free (snd kv)) items
  | VList _ => false
  | _ => true
  end.

(** The value [flatten] stores for a leaf position holding [c]: [None] for
    an empty container, [c] itself otherwise. *)
Definition leaf_value (c : value) : value :=
  if is_empty_container c then VNone else c.

(** [c] is a leaf position of a walk: a non-container or an empty
    container. *)
Definition is_leaf_position (c : value) : bool :=
  negb (is_container c) || is_empty_container c.

(** The length of the longest path of a flattened dictionary. *)
Definition longest_path (flat : list (path * value)) : nat :=
  list_max (map (fun e => List.length (fst e)) flat).

(** The position of [lol[i][j]] in the concatenation of [lol]. *)
Definition flat_position {A} (lol : list (list A)) (i j : nat) : nat :=
  List.length (List.concat (firstn i lol)) + j.

(** [lol[i][j]], when it exists. *)
Definition lol_get {A} (lol : list (list A)) (i j : nat) : option A :=
  match nth_error lol i with
  | Some sub_list => nth_error sub_list j
  | None => None
  end.

(** The matrix entry [distance_matrix[i1][i2]], when it exists. *)
Definition matrix_get (distance_matrix : list (list Z)) (i1 i2 : Z)
  : option Z :=
  match getitem distance_matrix i1 with
  | inr row =>
      match getitem row i2 with
      | inr d => Some d
      | inl _ => None
      end
  | inl _ => None
  end.

(** The report bears the metric. *)
Definition has_metric (dd : report) : bool := existsb bears_metric dd.

(** Every entry of the matrix for an index of [indices1] and a proper index
    of [indices2] exists and is positive. *)
Definition positive_on (distance_matrix : list (list Z)) (indices1 : list Z)
  (indices2 : list (option Z)) : Prop :=
  forall i1 i2, In i1 indices1 -> In (Some i2) indices2 ->
    exists d, matrix_get distance_matrix i1 i2 = Some d /\ (0 < d)%Z.

(** The entries one row of [len] items adds to [map_lol_to_flat]: the keys
    [(i, j)], [(i, j + 1)], ... with the positions [base], [base + 1], ... *)
Fixpoint row_entries (i j base len : nat) : list ((nat * nat) * nat) :=
  match len with
  | O => []
  | S len' => ((i, j), base) :: row_entries i (S j) (S base) len'
  end.

(** The entries the rows of [lol] add, the first row being row [i] and the
    first position [base]. *)
Fixpoint lol_entries {A} (i base : nat) (lol : list (list A))
  : list ((nat * nat) * nat) :=
  match lol with
  | [] => []
  | sub_list :: rest =>
      row_entries i 0 base (List.length sub_list)
      ++ lol_entries (S i) (base + List.length sub_list) rest
  end.

(** ** [find_best_match] over the numbers of the matrix *)

(** The loops of [find_best_match] again, for any kind of number the matrix
    may hold: [zero] is the [0] the sum starts from, [add] is [+], [ltb] is
    [<] and [below_inf x] is [x < math.inf].  At Python integers this is
    [find_best_match] above; at binary64 floats it is
    [find_best_match_float]. *)
Section Numbers.
Variable num : Type.
Variable zero : num.
Variable add : num -> num -> num.
Variable ltb : num -> num -> bool.
Variable below_inf : num -> bool.

(** [best_match_distance]: [math.inf], or the distance of a match. *)
Inductive best_distance : Type :=
| BInf
| BNum (d : num).

(** [match_distance < best_match_distance] *)
Definition best_ltb (d : num) (best : best_distance) : bool :=
  match best with
  | BInf => below_inf d
  | BNum b => ltb d b
  end.

Fixpoint match_distance_with (distance_matrix : list (list num))
  (pairs : list (Z * option Z)) (acc : num) : result num :=
  match pairs with
  | [] => ret acc
  | (i1, None) :: rest => match_distance_with distance_matrix rest acc
  | (i1, Some i2) :: rest =>
      row <- getitem distance_matrix i1 ;;
      d <- getitem row i2 ;;
      match_distance_with distance_matrix rest (add acc d)
  end.

Fixpoint search_with (indices1 : list Z) (distance_matrix : list (list num))
  (match_space : list (list (option Z)))
  (best_match_distance : best_distance)
  (best_match_solution : option (list (option Z)))
  : result (best_distance * option (list (option Z))) :=
  match match_space with
  | [] => ret (best_match_distance, best_match_solution)
  | m :: rest =>
      d <- match_distance_with distance_matrix (combine indices1 m) zero ;;
      if best_ltb d best_match_distance
      then search_with indices1 distance_matrix rest (BNum d) (Some m)
      else search_with indices1 distance_matrix rest
             best_match_distance best_match_solution
  end.

Definition find_best_match_with (indices1 : list Z)
  (indices2 : list (option Z)) (distance_matrix : list (list num))
  : result (list (Z * option Z)) :=
  let match_space := permutations indices2 (List.length indices1) in
  st <- search_with indices1 distance_matrix match_space BInf None ;;
  match snd st with
  | None => raise AssertionError
  | Some best_match_solution =>
      ret (dict_of_items Z.eqb (combine indices1 best_match_solution))
  end.
End Numbers.

(** [best_match_distance] over integers, as a [best_distance]. *)
Definition best_of_dist (d : dist) : best_distance Z :=
  match d with
  | Inf => BInf Z
  | Fin z => BNum Z z
  end.


(** The rational a finite float stands for. *)
Definition exact_value (x : float) : option Q :=
  match Prim2SF x with
  | S754_zero _ => Some 0%Q
  | S754_finite s m e =>
      Some ((if s then (-1)%Q else 1%Q) * inject_Z (Z.pos m) * (2 # 1) ^ e)%Q
  | _ => None
  end.

(** The total cost of a match over a float matrix, summed exactly;
    placeholders contribute nothing. *)
Fixpoint exact_cost (distance_matrix : list (list float))
  (pairs : list (Z * option Z)) : option Q :=
  match pairs with
  | [] => Some 0%Q
  | (_, None) :: rest => exact_cost distance_matrix rest
  | (i1, Some i2) :: rest =>
      match getitem distance_matrix i1 with
      | inr row =>
          match getitem row i2 with
          | inr d =>
              match exact_value d, exact_cost distance_matrix rest with
              | Some v, Some c => Some (v + c)%Q
              | _, _ => None
              end
          | inl _ => None
          end
      | inl _ => None
      end
  end.


(** Two matrices of non-negative finite floats. *)
Definition tie_matrix : list (list float) :=
  [[0x1.999999999999ap-4; 5; 0x1.3333333333333p-2];
   [5; 0x1.999999999999ap-3; 5];
   [0x1.999999999999ap-4; 5; 0x1.3333333333333p-2]]%float.

Definition absorbing_matrix : list (list float) :=
  [[0x1p+53; 0x1p+53]; [0; 1]]%float.

(** * Properties *)

(** ** Induction over nested keys and values *)

Section KeyInduction.
Variable P : key -> Prop.
Hypothesis P_str : forall s, P (KStr s).
Hypothesis P_int : forall z, P (KInt z).
Hypothesis P_tuple : forall l, Forall P l -> P (KTuple l).

Fixpoint key_nested_ind (k : key) : P k :=
  match k with
  | KStr s => P_str s
  | KInt z => P_int z
  | KTuple l =>
      P_tuple l
        ((fix all (l : list key) : Forall P l :=
            match l with
            | [] => Forall_nil P
            | x :: r => Forall_cons x (key_nested_ind x) (all r)
            end) l)
  end.
End KeyInduction.

Section ValueInduction.
Variable P : value -> Prop.
Hypothesis P_leaf : forall v, is_container v = false -> P v.
Hypothesis P_dict :
  forall items, Forall (fun kv => P (snd kv)) items -> P (VDict items).
Hypothesis P_list : forall elems, Forall P elems -> P (VList elems).

Fixpoint value_nested_ind (v : value) : P v :=
  match v with
  | VDict items =>
      P_dict items
        ((fix all (l : list (key * value))
            : Forall (fun kv => P (snd kv)) l :=
            match l with
            | [] => Forall_nil _
            | kv :: r =>
                Forall_cons kv (value_nested_ind (snd kv)) (all r)
            end) items)
  | VList elems =>
      P_list elems
        ((fix all (l : list value) : Forall P l :=
            match l with
            | [] => Forall_nil P
            | x :: r => Forall_cons x (value_nested_ind x) (all r)
            end) elems)
  | VNone => P_leaf VNone eq_refl
  | VBool b => P_leaf (VBool b) eq_refl
  | VInt z => P_leaf (VInt z) eq_refl
  | VStr s => P_leaf (VStr s) eq_refl
  | VNotPresent => P_leaf VNotPresent eq_refl
  end.
End ValueInduction.

(** ** Key equality decides equality *)

Lemma key_eqb_tuple (l m : list key) :
  key_eqb (KTuple l) (KTuple m) = path_eqb l m.
Proof.
  revert m; induction l as [|x l IH]; intros [|y m]; reflexivity.
Qed.

Lemma key_eqb_eq (a b : key) : key_eqb a b = true <-> a = b.
Proof.
  revert b; induction a as [s|z|l IH] using key_nested_ind; intros b.
  - destruct b; simpl; try (split; discriminate).
    rewrite String.eqb_eq. split; congruence.
  - destruct b; simpl; try (split; discriminate).
    rewrite Z.eqb_eq. split; congruence.
  - destruct b as [| |m]; try (simpl; split; discriminate).
    rewrite key_eqb_tuple.
    revert m; induction IH as [|x l Hx _ IHl]; intros [|y m]; simpl;
      try (split; [discriminate | congruence]).
    + split; reflexivity.
    + rewrite andb_true_iff, Hx, IHl. split.
      * intros [-> E]. congruence.
      * intros E. inversion E; subst. split; reflexivity.
Qed.

Lemma path_eqb_eq (p q : path) : path_eqb p q = true <-> p = q.
Proof.
  rewrite <- key_eqb_tuple, key_eqb_eq. split; congruence.
Qed.

Lemma key_eqb_refl (k : key) : key_eqb k k = true.
Proof. apply key_eqb_eq; reflexivity. Qed.

(** ** Dictionaries built from items with pairwise different keys *)

Section DictFacts.
Context {K V : Type}.
Variable eqb : K -> K -> bool.
Hypothesis eqb_eq : forall a b, eqb a b = true <-> a = b.

Lemma dict_set_fresh (d : list (K * V)) k v :
  ~ In k (keys d) -> dict_set eqb d k v = d ++ [(k, v)].
Proof.
  induction d as [|[k' v'] d IH]; simpl; intros H; [reflexivity|].
  destruct (eqb k' k) eqn:E.
  - apply eqb_eq in E. tauto.
  - rewrite IH; tauto.
Qed.

Lemma fold_dict_set_nodup (items acc : list (K * V)) :
  NoDup (keys (acc ++ items)) ->
  fold_left (fun d kv => dict_set eqb d (fst kv) (snd kv)) items acc
  = acc ++ items.
Proof.
  revert acc; induction items as [|[k v] items IH]; intros acc H; simpl.
  - now rewrite app_nil_r.
  - assert (Hk : ~ In k (keys acc)).
    { unfold keys in *. rewrite map_app in H. simpl in H.
      apply NoDup_remove_2 in H. rewrite in_app_iff in H. tauto. }
    rewrite (dict_set_fresh acc k v Hk), IH.
    + now rewrite <- app_assoc.
    + now rewrite <- app_assoc.
Qed.

Lemma dict_of_items_nodup (items : list (K * V)) :
  NoDup (keys items) -> dict_of_items eqb items = items.
Proof. intros H. apply (fold_dict_set_nodup items []). exact H. Qed.

Lemma keys_dict_set (d : list (K * V)) k v :
  keys (dict_set eqb d k v) = keys d \/
  (~ In k (keys d) /\ keys (dict_set eqb d k v) = keys d ++ [k]).
Proof.
  induction d as [|[k' v'] d IH]; simpl.
  - right. split; [tauto | reflexivity].
  - destruct (eqb k' k) eqn:E; simpl.
    + left. reflexivity.
    + destruct IH as [IH | [Hn IH]].
      * left. now rewrite IH.
      * right. split.
        -- intros [H | H]; [|tauto].
           subst. rewrite (proj2 (eqb_eq k k) eq_refl) in E. discriminate.
        -- now rewrite IH.
Qed.

Lemma dict_set_nodup (d : list (K * V)) k v :
  NoDup (keys d) -> NoDup (keys (dict_set eqb d k v)).
Proof.
  intros H. destruct (keys_dict_set d k v) as [E | [Hn E]]; rewrite E.
  - exact H.
  - apply NoDup_app; [exact H | repeat constructor; intros [] |].
    intros x Hx [Hk | []]. subst. tauto.
Qed.

(** A dictionary never stores a key twice. *)
Lemma dict_of_items_keys_nodup (items : list (K * V)) :
  NoDup (keys (dict_of_items eqb items)).
Proof.
  unfold dict_of_items.
  assert (G : forall acc, NoDup (keys acc) ->
    NoDup (keys (fold_left
      (fun d kv => dict_set eqb d (fst kv) (snd kv)) items acc))).
  { induction items as [|[k v] items IH]; intros acc H; simpl; [exact H|].
    apply IH, dict_set_nodup, H. }
  apply G. constructor.
Qed.

Lemma dict_get_in (d : list (K * V)) k v :
  NoDup (keys d) -> In (k, v) d -> dict_get eqb d k = Some v.
Proof.
  induction d as [|[k' v'] d IH]; simpl; intros Hn H; [contradiction|].
  destruct H as [H | H].
  - inversion H; subst. now rewrite (proj2 (eqb_eq k k) eq_refl).
  - inversion Hn as [|? ? Hk Hd]; subst.
    destruct (eqb k' k) eqn:E.
    + apply eqb_eq in E. subst. exfalso. apply Hk.
      change k with (fst (k, v)). now apply in_map.
    + now apply IH.
Qed.

Lemma dict_get_some_in (d : list (K * V)) k v :
  dict_get eqb d k = Some v -> In (k, v) d.
Proof.
  induction d as [|[k' v'] d IH]; simpl; [discriminate|].
  destruct (eqb k' k) eqn:E.
  - apply eqb_eq in E. intros H. left. congruence.
  - intros H. right. now apply IH.
Qed.

Lemma count_key_absent (d : list (K * V)) k :
  ~ In k (keys d) -> count_key eqb d k = 0.
Proof.
  unfold count_key.
  induction d as [|[k' v'] d IH]; simpl; intros H; [reflexivity|].
  destruct (eqb k' k) eqn:E.
  - apply eqb_eq in E. tauto.
  - apply IH. tauto.
Qed.

Lemma count_key_in (d : list (K * V)) k :
  NoDup (keys d) -> In k (keys d) -> count_key eqb d k = 1.
Proof.
  induction d as [|[k' v'] d IH]; simpl; intros Hn H; [contradiction|].
  destruct H as [H | H].
  - subst. inversion Hn; subst. unfold count_key. simpl.
    rewrite (proj2 (eqb_eq k k) eq_refl). simpl. f_equal.
    now apply count_key_absent.
  - inversion Hn as [|? ? Hk Hd]; subst. unfold count_key. simpl.
    destruct (eqb k' k) eqn:E.
    + apply eqb_eq in E. subst. contradiction.
    + now apply IH.
Qed.
End DictFacts.

(** ** [flatten] computes the leaves of a well-formed structure *)

Example flatten_nested :
  flatten [(KStr "a", VDict [(KStr "b", VInt 1)]);
           (KStr "c", VList [VInt 1; VList []; VDict [(KInt 0, VNone)]])] None
  = [([KStr "a"; KStr "b"], VInt 1);
     ([KStr "c"; KInt 0], VInt 1);
     ([KStr "c"; KInt 1], VNone);
     ([KStr "c"; KInt 2; KInt 0], VNone)].
Proof. reflexivity. Qed.

Example dict_of_items_last_wins :
  dict_of_items Z.eqb [(1, true); (2, true); (1, false)]%Z
  = [(1, false); (2, true)]%Z.
Proof. reflexivity. Qed.

Lemma new_key_of_nonempty (parent_key : option path) (k : key) :
  new_key_of parent_key k <> [].
Proof.
  unfold new_key_of. destruct parent_key as [[|x p]|]; simpl; try discriminate.
Qed.

Lemma new_key_of_some (p : path) (k : key) :
  p <> [] -> new_key_of (Some p) k = p ++ [k].
Proof. destruct p; [congruence | reflexivity]. Qed.

Lemma new_key_of_child (parent_key : option path) (k k' : key) :
  new_key_of (Some (new_key_of parent_key k)) k'
  = new_key_of parent_key k ++ [k'].
Proof. apply new_key_of_some, new_key_of_nonempty. Qed.

Lemma distinct_keys_nodup (ks : list key) :
  distinct_keys ks = true <-> NoDup ks.
Proof.
  induction ks as [|k ks IH]; simpl.
  - split; [constructor | reflexivity].
  - rewrite andb_true_iff, negb_true_iff, IH. split.
    + intros [Hn Hd]. constructor; [|exact Hd].
      intros Hin. assert (E : existsb (key_eqb k) ks = true).
      { apply existsb_exists. exists k. split; [exact Hin | apply key_eqb_refl]. }
      congruence.
    + intros H. inversion H as [|? ? Hk Hd]; subst. split; [|exact Hd].
      destruct (existsb (key_eqb k) ks) eqn:E; [|reflexivity].
      apply existsb_exists in E. destruct E as [x [Hx E]].
      apply key_eqb_eq in E. subst. contradiction.
Qed.

Lemma wf_value_dict (items : list (key * value)) :
  wf_value (VDict items) = true ->
  NoDup (map fst items) /\ Forall (fun kv => wf_value (snd kv) = true) items.
Proof.
  simpl. rewrite andb_true_iff, distinct_keys_nodup, forallb_forall.
  intros [H1 H2]. split; [exact H1 | now apply Forall_forall].
Qed.

Lemma wf_value_list (elems : list value) :
  wf_value (VList elems) = true -> Forall (fun v => wf_value v = true) elems.
Proof. simpl. rewrite forallb_forall. intros H. now apply Forall_forall. Qed.

Lemma extend_enumerate_ext {A B} (f g : nat -> A -> list B) (l : list A) :
  Forall (fun a => forall i, f i a = g i a) l ->
  forall i, extend_enumerate f i l = extend_enumerate g i l.
Proof.
  induction 1 as [|a l Ha _ IH]; intros i; simpl; [reflexivity|].
  now rewrite Ha, IH.
Qed.

Lemma map_extend_enumerate {A B C} (h : B -> C) (f : nat -> A -> list B)
  (l : list A) (i : nat) :
  map h (extend_enumerate f i l)
  = extend_enumerate (fun j a => map h (f j a)) i l.
Proof.
  revert i; induction l as [|a l IH]; intros i; simpl; [reflexivity|].
  now rewrite map_app, IH.
Qed.

Lemma flat_map_ext_Forall {A B} (f g : A -> list B) (l : list A) :
  Forall (fun a => f a = g a) l -> flat_map f l = flat_map g l.
Proof.
  induction 1 as [|a l Ha _ IH]; simpl; [reflexivity|]. now rewrite Ha, IH.
Qed.

Lemma map_flat_map {A B C} (h : B -> C) (f : A -> list B) (l : list A) :
  map h (flat_map f l) = flat_map (fun a => map h (f a)) l.
Proof.
  induction l as [|a l IH]; simpl; [reflexivity|]. now rewrite map_app, IH.
Qed.

(** Paths below different first segments are different. *)
Lemma nodup_keys_items {V} (g : key * value -> list (path * V))
  (items : list (key * value)) :
  NoDup (map fst items) ->
  Forall (fun kv => NoDup (keys (g kv))) items ->
  NoDup (keys (flat_map
    (fun kv => map (fun e => (fst kv :: fst e, snd e)) (g kv)) items)).
Proof.
  induction items as [|[k v] items IH]; simpl; intros Hk Hg.
  - constructor.
  - inversion Hk as [|? ? Hnk Hk']; subst.
    inversion Hg as [|? ? Hg1 Hg']; subst.
    unfold keys in *. rewrite map_app. apply NoDup_app.
    + rewrite map_map. simpl.
      rewrite <- (map_map fst (cons k)).
      apply Finite.Injective_map_NoDup; [|exact Hg1].
      intros a b E. congruence.
    + now apply IH.
    + intros p Hp1 Hp2.
      rewrite map_map in Hp1. apply in_map_iff in Hp1.
      destruct Hp1 as [e [<- _]]. simpl in Hp2.
      rewrite map_flat_map in Hp2. apply in_flat_map in Hp2.
      destruct Hp2 as [[k' v'] [Hin Hp2]].
      rewrite map_map in Hp2. apply in_map_iff in Hp2.
      destruct Hp2 as [e' [E _]]. simpl in E. inversion E; subst.
      apply Hnk. change k with (fst (k, v')). now apply in_map.
Qed.

(** Paths below different positions of a list are different. *)
Lemma nodup_keys_enumerate {V} (g : value -> list (path * V))
  (elems : list value) (i : nat) :
  Forall (fun v => NoDup (keys (g v))) elems ->
  NoDup (keys (extend_enumerate
    (fun j v => map (fun e => (KInt (Z.of_nat j) :: fst e, snd e)) (g v))
    i elems))
  /\ (forall p, In p (keys (extend_enumerate
        (fun j v => map (fun e => (KInt (Z.of_nat j) :: fst e, snd e)) (g v))
        i elems)) ->
      exists j q, i <= j /\ p = KInt (Z.of_nat j) :: q).
Proof.
  intros H. revert i. induction H as [|v elems Hv _ IH]; intros i; simpl.
  - split; [constructor | intros p []].
  - destruct (IH (S i)) as [IH1 IH2]. unfold keys in *. rewrite map_app.
    split.
    + apply NoDup_app.
      * rewrite map_map. simpl.
        rewrite <- (map_map fst (cons (KInt (Z.of_nat i)))).
        apply Finite.Injective_map_NoDup; [|exact Hv].
        intros a b E. congruence.
      * exact IH1.
      * intros p Hp1 Hp2. rewrite map_map in Hp1. apply in_map_iff in Hp1.
        destruct Hp1 as [e [<- _]]. simpl in Hp2.
        destruct (IH2 _ Hp2) as [j [q [Hj E]]]. inversion E. lia.
    + intros p Hp. apply in_app_iff in Hp. destruct Hp as [Hp | Hp].
      * rewrite map_map in Hp. apply in_map_iff in Hp.
        destruct Hp as [e [<- _]]. exists i, (fst e). split; [lia | reflexivity].
      * destruct (IH2 _ Hp) as [j [q [Hj E]]]. exists j, q. split; [lia | exact E].
Qed.

Lemma rel_leaves_nodup (v : value) :
  wf_value v = true -> NoDup (keys (rel_leaves v)).
Proof.
  induction v as [v Hv | items IH | elems IH] using value_nested_ind;
    intros Hwf.
  - destruct v; try discriminate; simpl; repeat constructor; intros [].
  - destruct (wf_value_dict items Hwf) as [Hk Hvs].
    destruct items as [|kv items]; [simpl; repeat constructor; intros []|].
    change (rel_leaves (VDict (kv :: items))) with
      (flat_map (fun kv => map (fun e => (fst kv :: fst e, snd e))
                             (rel_leaves (snd kv))) (kv :: items)).
    apply (nodup_keys_items (fun kv => rel_leaves (snd kv))); [exact Hk|].
    rewrite Forall_forall in *. intros x Hx. apply IH; [exact Hx|].
    now apply Hvs.
  - pose proof (wf_value_list elems Hwf) as Hvs.
    destruct elems as [|x elems]; [simpl; repeat constructor; intros []|].
    change (rel_leaves (VList (x :: elems))) with
      (extend_enumerate
         (fun i v' => map (fun e => (KInt (Z.of_nat i) :: fst e, snd e))
                        (rel_leaves v')) 0 (x :: elems)).
    apply (nodup_keys_enumerate rel_leaves).
    rewrite Forall_forall in *. intros y Hy. apply IH; [exact Hy|].
    now apply Hvs.
Qed.

(** The recursive calls of the source, recovered from [flatten_item]. *)
Lemma flatten_item_dict parent_key k kv items :
  flatten_item parent_key k (VDict (kv :: items))
  = flatten (kv :: items) (Some (new_key_of parent_key k)).
Proof. reflexivity. Qed.

Lemma flatten_item_list parent_key k x elems :
  flatten_item parent_key k (VList (x :: elems))
  = extend_enumerate
      (fun i v' =>
         flatten [(KInt (Z.of_nat i), v')] (Some (new_key_of parent_key k)))
      0 (x :: elems).
Proof. reflexivity. Qed.

Lemma new_key_of_base (parent_key : option path) :
  exists base, forall k, new_key_of parent_key k = base ++ [k].
Proof.
  destruct parent_key as [[|x p]|].
  - exists []. reflexivity.
  - exists (x :: p). reflexivity.
  - exists []. reflexivity.
Qed.

Lemma nodup_keys_prefix {V} (base : path) (l : list (path * V)) :
  NoDup (keys l) ->
  NoDup (keys (map (fun e => (base ++ fst e, snd e)) l)).
Proof.
  intros H. unfold keys in *. rewrite map_map. simpl.
  rewrite <- (map_map fst (app base)).
  apply Finite.Injective_map_NoDup; [|exact H].
  intros a b E. now apply app_inv_head in E.
Qed.

Lemma flatten_with (items : list (key * value)) (parent_key : option path) :
  NoDup (map fst items) ->
  Forall (fun kv => wf_value (snd kv) = true) items ->
  Forall (fun kv => forall parent k,
            flatten_item parent k (snd kv)
            = map (fun e => (new_key_of parent k ++ fst e, snd e))
                (rel_leaves (snd kv))) items ->
  flatten items parent_key
  = flat_map
      (fun kv => map (fun e => (new_key_of parent_key (fst kv) ++ fst e, snd e))
                   (rel_leaves (snd kv))) items.
Proof.
  intros Hk Hwf IH. unfold flatten.
  rewrite (flat_map_ext_Forall _
    (fun kv => map (fun e => (new_key_of parent_key (fst kv) ++ fst e, snd e))
                 (rel_leaves (snd kv)))).
  2:{ rewrite Forall_forall in *. intros kv Hkv. now apply IH. }
  apply dict_of_items_nodup; [exact path_eqb_eq|].
  destruct (new_key_of_base parent_key) as [base Hb].
  rewrite (flat_map_ext _
    (fun kv => map (fun e => (base ++ fst e, snd e))
      (map (fun e => (fst kv :: fst e, snd e)) (rel_leaves (snd kv))))).
  2:{ intros kv. rewrite map_map. apply map_ext. intros e. simpl.
      now rewrite Hb, <- app_assoc. }
  rewrite <- map_flat_map. apply nodup_keys_prefix.
  apply (nodup_keys_items (fun kv => rel_leaves (snd kv))); [exact Hk|].
  rewrite Forall_forall in *. intros kv Hkv. apply rel_leaves_nodup.
  now apply Hwf.
Qed.

Lemma flatten_item_leaves (v : value) :
  wf_value v = true ->
  forall parent_key k,
    flatten_item parent_key k v
    = map (fun e => (new_key_of parent_key k ++ fst e, snd e)) (rel_leaves v).
Proof.
  induction v as [v Hv | items IH | elems IH] using value_nested_ind;
    intros Hwf parent_key k.
  - destruct v; try discriminate; simpl; now rewrite app_nil_r.
  - destruct (wf_value_dict items Hwf) as [Hk Hvs].
    destruct items as [|kv items]; [simpl; now rewrite app_nil_r|].
    rewrite flatten_item_dict, flatten_with; try assumption.
    + change (rel_leaves (VDict (kv :: items))) with
        (flat_map (fun kv => map (fun e => (fst kv :: fst e, snd e))
                               (rel_leaves (snd kv))) (kv :: items)).
      rewrite map_flat_map. apply flat_map_ext. intros kv'.
      rewrite map_map. apply map_ext. intros e. simpl.
      now rewrite new_key_of_child, <- app_assoc.
    + rewrite Forall_forall in *. intros kv' Hkv' parent k'.
      apply IH; [exact Hkv' | now apply Hvs].
  - pose proof (wf_value_list elems Hwf) as Hvs.
    destruct elems as [|x elems]; [simpl; now rewrite app_nil_r|].
    rewrite flatten_item_list.
    change (rel_leaves (VList (x :: elems))) with
      (extend_enumerate
         (fun i v' => map (fun e => (KInt (Z.of_nat i) :: fst e, snd e))
                        (rel_leaves v')) 0 (x :: elems)).
    rewrite map_extend_enumerate. apply extend_enumerate_ext.
    rewrite Forall_forall in *. intros y Hy i.
    rewrite flatten_with.
    + simpl. rewrite app_nil_r, map_map. apply map_ext. intros e. simpl.
      now rewrite new_key_of_child, <- app_assoc.
    + simpl. repeat constructor. intros [].
    + repeat constructor. simpl. now apply Hvs.
    + repeat constructor. simpl. intros parent k'.
      apply IH; [exact Hy | now apply Hvs].
Qed.

(** On a well-formed dictionary, [flatten] lists the leaves in walk order,
    each under its path from the top. *)
Lemma flatten_leaves (d : list (key * value)) :
  wf_dict d = true ->
  flatten d None
  = flat_map
      (fun kv => map (fun e => (fst kv :: fst e, snd e)) (rel_leaves (snd kv)))
      d.
Proof.
  intros Hwf. destruct (wf_value_dict d Hwf) as [Hk Hvs].
  rewrite flatten_with; try assumption.
  - apply flat_map_ext. intros kv. apply map_ext. intros e. reflexivity.
  - rewrite Forall_forall in *. intros kv Hkv parent k.
    apply flatten_item_leaves. now apply Hvs.
Qed.

Lemma flatten_keys_nodup (d : list (key * value)) (parent_key : option path) :
  NoDup (keys (flatten d parent_key)).
Proof. apply dict_of_items_keys_nodup. exact path_eqb_eq. Qed.

(** ** Empty containers and the number of leaves *)

Lemma in_extend_enumerate {V} (g : value -> list (path * V))
  (elems : list value) (n : nat) (v : value) (e : path * V) :
  nth_error elems n = Some v -> In e (g v) ->
  forall i,
    In (KInt (Z.of_nat (i + n)) :: fst e, snd e)
      (extend_enumerate
         (fun j v' => map (fun e' => (KInt (Z.of_nat j) :: fst e', snd e')) (g v'))
         i elems).
Proof.
  revert n; induction elems as [|x elems IH]; intros [|n] Hn He i;
    simpl in Hn; try discriminate.
  - inversion Hn; subst. simpl. apply in_or_app. left.
    rewrite Nat.add_0_r.
    apply (in_map (fun e' => (KInt (Z.of_nat i) :: fst e', snd e'))), He.
  - simpl. apply in_or_app. right.
    replace (i + S n) with (S i + n) by lia. now apply IH.
Qed.

(** An empty container reached at [p] is listed as the leaf [(p, None)]. *)
Lemma at_path_empty_leaf (p : path) :
  forall v c,
    wf_value v = true -> at_path v p = Some c ->
    is_empty_container c = true -> In (p, VNone) (rel_leaves v).
Proof.
  induction p as [|seg p IH]; intros v c Hwf Hat He.
  - simpl in Hat. inversion Hat; subst.
    destruct c as [| | | | |[|]|[|]]; try discriminate; simpl; now left.
  - destruct v as [| | | | |items|elems]; simpl in Hat; try discriminate.
    + destruct (dict_get key_eqb items seg) as [v'|] eqn:Hg; [|discriminate].
      apply (dict_get_some_in key_eqb key_eqb_eq) in Hg.
      destruct (wf_value_dict items Hwf) as [_ Hvs].
      rewrite Forall_forall in Hvs. pose proof (Hvs _ Hg) as Hwf'.
      destruct items as [|kv items]; [contradiction|].
      change (rel_leaves (VDict (kv :: items))) with
        (flat_map (fun kv => map (fun e => (fst kv :: fst e, snd e))
                               (rel_leaves (snd kv))) (kv :: items)).
      apply in_flat_map. exists (seg, v'). split; [exact Hg|].
      apply (in_map (fun e => (seg :: fst e, snd e)) _ (p, VNone)).
      now apply (IH v' c).
    + destruct seg as [|i|]; try discriminate.
      destruct (i <? 0)%Z eqn:Hi; [discriminate|].
      destruct (nth_error elems (Z.to_nat i)) as [v'|] eqn:Hn; [|discriminate].
      pose proof (wf_value_list elems Hwf) as Hvs.
      rewrite Forall_forall in Hvs.
      pose proof (Hvs _ (nth_error_In _ _ Hn)) as Hwf'.
      destruct elems as [|x elems]; [destruct (Z.to_nat i); discriminate|].
      change (rel_leaves (VList (x :: elems))) with
        (extend_enumerate
           (fun j v' => map (fun e => (KInt (Z.of_nat j) :: fst e, snd e))
                          (rel_leaves v')) 0 (x :: elems)).
      pose proof (in_extend_enumerate rel_leaves (x :: elems) (Z.to_nat i) v'
                    (p, VNone) Hn (IH v' c Hwf' Hat He) 0) as G.
      simpl fst in G. simpl snd in G. rewrite Nat.add_0_l in G.
      rewrite Z2Nat.id in G by (apply Z.ltb_ge in Hi; lia). exact G.
Qed.

(** C6: in the flattening of a well-formed dictionary, every empty mapping
    and every empty list found at a path [p] below the top level is one
    entry, stored under [p] with the value [None]; and [flatten({"x": {}})]
    is [{("x",): None}]. *)
Theorem flatten_empty_container :
  (forall (d : list (key * value)) (p : path) (c : value),
      wf_dict d = true -> p <> [] ->
      at_path (VDict d) p = Some c -> is_empty_container c = true ->
      dict_get path_eqb (flatten d None) p = Some VNone
      /\ count_key path_eqb (flatten d None) p = 1)
  /\ flatten [(KStr "x", VDict [])] None = [([KStr "x"], VNone)].
Proof.
  split; [|reflexivity].
  intros d p c Hwf Hp Hat He.
  assert (Hin : In (p, VNone) (flatten d None)).
  { rewrite (flatten_leaves d Hwf).
    pose proof (at_path_empty_leaf p (VDict d) c Hwf Hat He) as G.
    destruct d as [|kv d]; [|exact G].
    destruct p; [congruence | discriminate]. }
  split.
  - apply (dict_get_in path_eqb path_eqb_eq); [apply flatten_keys_nodup | exact Hin].
  - apply (count_key_in path_eqb path_eqb_eq); [apply flatten_keys_nodup|].
    change p with (fst (p, VNone)). now apply in_map.
Qed.

Lemma flatten_empty_container_witness :
  wf_dict [(KStr "a", VList [VInt 7; VDict []]); (KStr "b", VList [])] = true
  /\ [KStr "a"; KInt 1] <> []
  /\ at_path (VDict [(KStr "a", VList [VInt 7; VDict []]); (KStr "b", VList [])])
       [KStr "a"; KInt 1] = Some (VDict [])
  /\ is_empty_container (VDict []) = true
  /\ dict_get path_eqb
       (flatten [(KStr "a", VList [VInt 7; VDict []]); (KStr "b", VList [])] None)
       [KStr "a"; KInt 1] = Some VNone
  /\ count_key path_eqb
       (flatten [(KStr "a", VList [VInt 7; VDict []]); (KStr "b", VList [])] None)
       [KStr "a"; KInt 1] = 1.
Proof.
  split; [reflexivity|]. split; [discriminate|].
  split; [reflexivity|]. split; [reflexivity|].
  apply (proj1 flatten_empty_container
           [(KStr "a", VList [VInt 7; VDict []]); (KStr "b", VList [])]
           [KStr "a"; KInt 1] (VDict []));
    [reflexivity | discriminate | reflexivity | reflexivity].
Defined.

Lemma length_extend_enumerate {A B} (f : nat -> A -> list B) (g : A -> nat)
  (l : list A) :
  (forall i a, List.length (f i a) = g a) ->
  forall i, List.length (extend_enumerate f i l) = list_sum (map g l).
Proof.
  intros H. induction l as [|a l IH]; intros i; simpl; [reflexivity|].
  now rewrite length_app, H, IH.
Qed.

Lemma list_sum_map_add {A} (f g : A -> nat) (l : list A) :
  list_sum (map (fun a => f a + g a) l)
  = list_sum (map f l) + list_sum (map g l).
Proof. induction l as [|a l IH]; simpl; [reflexivity | lia]. Qed.

Lemma list_sum_map_ext {A} (f g : A -> nat) (l : list A) :
  Forall (fun a => f a = g a) l -> list_sum (map f l) = list_sum (map g l).
Proof. induction 1 as [|a l Ha _ IH]; simpl; [reflexivity | lia]. Qed.

Lemma rel_leaves_length (v : value) :
  List.length (rel_leaves v) = scalar_count v + empty_count v.
Proof.
  induction v as [v Hv | items IH | elems IH] using value_nested_ind.
  - destruct v; try discriminate; reflexivity.
  - destruct items as [|kv items]; [reflexivity|].
    change (rel_leaves (VDict (kv :: items))) with
      (flat_map (fun kv => map (fun e => (fst kv :: fst e, snd e))
                             (rel_leaves (snd kv))) (kv :: items)).
    change (empty_count (VDict (kv :: items))) with
      (list_sum (map (fun kv => empty_count (snd kv)) (kv :: items))).
    change (scalar_count (VDict (kv :: items))) with
      (list_sum (map (fun kv => scalar_count (snd kv)) (kv :: items))).
    rewrite length_flat_map, <- list_sum_map_add.
    apply list_sum_map_ext. rewrite Forall_forall in *. intros x Hx.
    rewrite length_map. now apply IH.
  - destruct elems as [|x elems]; [reflexivity|].
    change (rel_leaves (VList (x :: elems))) with
      (extend_enumerate
         (fun i v' => map (fun e => (KInt (Z.of_nat i) :: fst e, snd e))
                        (rel_leaves v')) 0 (x :: elems)).
    change (empty_count (VList (x :: elems))) with
      (list_sum (map empty_count (x :: elems))).
    change (scalar_count (VList (x :: elems))) with
      (list_sum (map scalar_count (x :: elems))).
    rewrite (length_extend_enumerate _
               (fun v' => List.length (rel_leaves v')))
      by (intros; apply length_map).
    rewrite <- list_sum_map_add. now apply list_sum_map_ext.
Qed.

(** C7, as stated, fails on the empty top-level mapping: it is an empty
    container, and its flattening has no entry. *)
Lemma flatten_count_top_level_empty :
  List.length (flatten [] None)
  <> scalar_count (VDict []) + empty_count (VDict []).
Proof. vm_compute. discriminate. Qed.

(** C7 (amended): the flattening of a well-formed dictionary has one entry
    for each scalar met by an exhaustive walk, plus one for each empty
    container strictly below the top level; when the top-level mapping is
    not empty, that is every empty container of the structure. *)
Theorem flatten_leaf_count (d : list (key * value)) :
  wf_dict d = true ->
  List.length (flatten d None) = scalar_count (VDict d) + empty_count_below d
  /\ (d <> [] ->
      List.length (flatten d None)
      = scalar_count (VDict d) + empty_count (VDict d)).
Proof.
  intros Hwf.
  assert (E : List.length (flatten d None)
              = scalar_count (VDict d) + empty_count_below d).
  { rewrite (flatten_leaves d Hwf), length_flat_map.
    unfold empty_count_below. simpl scalar_count.
    rewrite <- list_sum_map_add. apply list_sum_map_ext.
    apply Forall_forall. intros kv _.
    rewrite length_map. apply rel_leaves_length. }
  split; [exact E|].
  intros Hd. rewrite E. destruct d as [|kv d]; [congruence | reflexivity].
Qed.

Lemma flatten_leaf_count_witness :
  wf_dict [(KStr "a", VDict [(KStr "b", VInt 1); (KStr "e", VDict [])]);
           (KStr "c", VList [VInt 1; VList []])] = true
  /\ List.length
       (flatten [(KStr "a", VDict [(KStr "b", VInt 1); (KStr "e", VDict [])]);
                 (KStr "c", VList [VInt 1; VList []])] None)
     = scalar_count
         (VDict [(KStr "a", VDict [(KStr "b", VInt 1); (KStr "e", VDict [])]);
                 (KStr "c", VList [VInt 1; VList []])])
       + empty_count_below
           [(KStr "a", VDict [(KStr "b", VInt 1); (KStr "e", VDict [])]);
            (KStr "c", VList [VInt 1; VList []])].
Proof.
  split; [reflexivity|].
  refine (proj1 (flatten_leaf_count
           [(KStr "a", VDict [(KStr "b", VInt 1); (KStr "e", VDict [])]);
            (KStr "c", VList [VInt 1; VList []])] _)).
  reflexivity.
Defined.

(** ** Flattening a flattened dictionary *)

Lemma dict_set_values {K V} (eqb : K -> K -> bool) (P : V -> Prop)
  (d : list (K * V)) k v :
  Forall (fun e => P (snd e)) d -> P v ->
  Forall (fun e => P (snd e)) (dict_set eqb d k v).
Proof.
  induction 1 as [|[k' v'] d Hx Hd IH]; intros Hv; simpl.
  - repeat constructor. exact Hv.
  - destruct (eqb k' k); constructor; auto.
Qed.

Lemma dict_of_items_values {K V} (eqb : K -> K -> bool) (P : V -> Prop)
  (items : list (K * V)) :
  Forall (fun e => P (snd e)) items ->
  Forall (fun e => P (snd e)) (dict_of_items eqb items).
Proof.
  unfold dict_of_items. intros H.
  assert (G : forall acc, Forall (fun e => P (snd e)) acc ->
    Forall (fun e => P (snd e))
      (fold_left (fun d kv => dict_set eqb d (fst kv) (snd kv)) items acc)).
  { induction H as [|[k v] items Hx _ IH]; intros acc Hacc; simpl; [exact Hacc|].
    apply IH. now apply dict_set_values. }
  apply G. constructor.
Qed.

Lemma Forall_flat_map {A B} (P : B -> Prop) (f : A -> list B) (l : list A) :
  Forall (fun a => Forall P (f a)) l -> Forall P (flat_map f l).
Proof.
  induction 1 as [|a l Ha _ IH]; simpl; [constructor|].
  apply Forall_app. now split.
Qed.

Lemma Forall_extend_enumerate {A B} (P : B -> Prop) (f : nat -> A -> list B)
  (l : list A) :
  Forall (fun a => forall i, Forall P (f i a)) l ->
  forall i, Forall P (extend_enumerate f i l).
Proof.
  induction 1 as [|a l Ha _ IH]; intros i; simpl; [constructor|].
  apply Forall_app. split; [apply Ha | apply IH].
Qed.

(** Every value stored by [flatten] is a leaf. *)
Lemma flatten_item_values (v : value) :
  forall parent_key k,
    Forall (fun e => is_container (snd e) = false)
      (flatten_item parent_key k v).
Proof.
  induction v as [v Hv | items IH | elems IH] using value_nested_ind;
    intros parent_key k.
  - destruct v; try discriminate; repeat constructor.
  - destruct items as [|kv items]; [repeat constructor|].
    rewrite flatten_item_dict. unfold flatten.
    apply (dict_of_items_values path_eqb (fun x => is_container x = false)).
    apply Forall_flat_map. rewrite Forall_forall in *.
    intros x Hx. now apply IH.
  - destruct elems as [|x elems]; [repeat constructor|].
    rewrite flatten_item_list. apply Forall_extend_enumerate.
    rewrite Forall_forall in *. intros y Hy i. unfold flatten.
    apply (dict_of_items_values path_eqb (fun x => is_container x = false)).
    simpl. rewrite app_nil_r. now apply IH.
Qed.

Lemma flatten_values (d : list (key * value)) (parent_key : option path) :
  Forall (fun e => is_container (snd e) = false) (flatten d parent_key).
Proof.
  unfold flatten.
  apply (dict_of_items_values path_eqb (fun x => is_container x = false)).
  apply Forall_flat_map, Forall_forall. intros kv _.
  apply flatten_item_values.
Qed.

(** C8, as stated, fails: flattening the flattening of [{"a": 1}] stores the
    leaf under [(("a",),)], not under [("a",)]. *)
Lemma flatten_not_idempotent :
  flatten (as_dict (flatten [(KStr "a", VInt 1)] None)) None
  <> flatten [(KStr "a", VInt 1)] None.
Proof. vm_compute. discriminate. Qed.

(** C8 (amended): identical input yields an identical flattened mapping, and
    flattening a flattened mapping keeps its entries, their order and their
    values, and wraps each path into a one-element path. *)
Theorem flatten_twice :
  (forall (d : list (key * value)),
      flatten (as_dict (flatten d None)) None
      = map (fun e => ([KTuple (fst e)], snd e)) (flatten d None))
  /\ (forall (d1 d2 : list (key * value)) (parent_key : option path),
         d1 = d2 -> flatten d1 parent_key = flatten d2 parent_key).
Proof.
  split; [|intros d1 d2 parent_key ->; reflexivity].
  intros d. pose proof (flatten_values d None) as Hv.
  pose proof (flatten_keys_nodup d None) as Hk.
  set (r := flatten d None) in *. unfold flatten at 1.
  assert (E : flat_map (fun kv => flatten_item None (fst kv) (snd kv)) (as_dict r)
              = map (fun e => ([KTuple (fst e)], snd e)) r).
  { clear Hk. induction Hv as [|[p v] r Hx _ IH]; simpl; [reflexivity|].
    rewrite IH. f_equal. simpl in Hx.
    destruct v; try discriminate; reflexivity. }
  rewrite E. apply dict_of_items_nodup; [exact path_eqb_eq|].
  unfold keys in *. rewrite map_map. simpl.
  rewrite <- (map_map fst (fun p => [KTuple p])).
  apply Finite.Injective_map_NoDup; [|exact Hk].
  intros a b H. congruence.
Qed.

Lemma flatten_twice_witness :
  [(KStr "a", VList [VInt 1])] = [(KStr "a", VList [VInt 1])]
  /\ flatten [(KStr "a", VList [VInt 1])] None
     = flatten [(KStr "a", VList [VInt 1])] None.
Proof.
  split; [reflexivity|].
  apply (proj2 flatten_twice
           [(KStr "a", VList [VInt 1])] [(KStr "a", VList [VInt 1])] None).
  reflexivity.
Defined.

(** ** [flat_deepdiff_entry] on leaves and on empty containers *)

Example flat_deepdiff_entry_list :
  flat_deepdiff_entry (VList [VInt 1; VDict [(KStr "u", VStr "g")]]) [KStr "c"]
  = [([KStr "c"; KInt 0], VInt 1); ([KStr "c"; KInt 1; KStr "u"], VStr "g")].
Proof. reflexivity. Qed.

Example flat_deepdiff_entry_dict :
  flat_deepdiff_entry (VDict [(KStr "u", VList [])]) [KStr "c"; KInt 2]
  = [([KStr "c"; KInt 2; KStr "u"], VNone)].
Proof. reflexivity. Qed.

(** C9: on the not-present sentinel the resolver returns
    [{path_prefix: None}], on a scalar [v] it returns [{path_prefix: v}]. *)
Theorem flat_deepdiff_entry_leaf (path_prefix : path) :
  flat_deepdiff_entry VNotPresent path_prefix = [(path_prefix, VNone)]
  /\ (forall v : value,
         is_scalar v = true ->
         flat_deepdiff_entry v path_prefix = [(path_prefix, v)]).
Proof.
  split; [reflexivity|].
  intros v Hv. destruct v; try discriminate; reflexivity.
Qed.

Lemma flat_deepdiff_entry_leaf_witness :
  is_scalar (VStr "mol") = true
  /\ flat_deepdiff_entry (VStr "mol") [KStr "inputs"; KInt 0]
     = [([KStr "inputs"; KInt 0], VStr "mol")].
Proof.
  split; [reflexivity|].
  apply (proj2 (flat_deepdiff_entry_leaf [KStr "inputs"; KInt 0])).
  reflexivity.
Defined.

Lemma empty_list_entry (path_prefix : path) :
  flat_deepdiff_entry (VList []) path_prefix = [(path_prefix, VNone)].
Proof.
  unfold flat_deepdiff_entry. simpl. now rewrite app_nil_r.
Qed.

(** C10: the resolver maps an empty mapping to the empty mapping and an
    empty list to [{path_prefix: None}]; so a level whose added (removed)
    value is an empty mapping adds its path to [paths_added]
    ([paths_removed]) and nothing to [leaf_paths_added]
    ([leaf_paths_removed]), while an empty list adds its path there too. *)
Theorem flat_deepdiff_entry_empty (path_prefix : path) :
  flat_deepdiff_entry (VDict []) path_prefix = []
  /\ flat_deepdiff_entry (VList []) path_prefix = [(path_prefix, VNone)]
  /\ (forall (st : parsed) (p1 p2 : path),
         exists st',
           parse_level st (mkLevel VNotPresent (VDict []) p1 p2) = inr st'
           /\ paths_added st' = paths_added st ++ [p2]
           /\ leaf_paths_added st' = leaf_paths_added st)
  /\ (forall (st : parsed) (p1 p2 : path),
         exists st',
           parse_level st (mkLevel VNotPresent (VList []) p1 p2) = inr st'
           /\ paths_added st' = paths_added st ++ [p2]
           /\ leaf_paths_added st' = leaf_paths_added st ++ [p2])
  /\ (forall (st : parsed) (p1 p2 : path),
         exists st',
           parse_level st (mkLevel (VDict []) VNotPresent p1 p2) = inr st'
           /\ paths_removed st' = paths_removed st ++ [p1]
           /\ leaf_paths_removed st' = leaf_paths_removed st)
  /\ (forall (st : parsed) (p1 p2 : path),
         exists st',
           parse_level st (mkLevel (VList []) VNotPresent p1 p2) = inr st'
           /\ paths_removed st' = paths_removed st ++ [p1]
           /\ leaf_paths_removed st' = leaf_paths_removed st ++ [p1]).
Proof.
  split; [reflexivity|]. split; [apply empty_list_entry|].
  repeat split; intros st p1 p2; eexists; (split; [reflexivity|]);
    cbn [paths_added paths_removed leaf_paths_added leaf_paths_removed
         t1 t2 path_list_to_t1 path_list_to_t2];
    rewrite ?empty_list_entry; split; try reflexivity;
    apply app_nil_r.
Qed.

(** ** [parse_deepdiff] classifies every entry *)

Lemma classify_cases (lvl : DiffLevel) :
  (is_class Added lvl = true /\ is_class Removed lvl = false
   /\ is_class Altered lvl = false /\ is_class Invalid lvl = false)
  \/ (is_class Added lvl = false /\ is_class Removed lvl = true
      /\ is_class Altered lvl = false /\ is_class Invalid lvl = false)
  \/ (is_class Added lvl = false /\ is_class Removed lvl = false
      /\ is_class Altered lvl = true /\ is_class Invalid lvl = false)
  \/ (is_class Added lvl = false /\ is_class Removed lvl = false
      /\ is_class Altered lvl = false /\ is_class Invalid lvl = true).
Proof.
  unfold is_class, classify.
  destruct (is_not_present (t1 lvl)), (is_not_present (t2 lvl)); tauto.
Qed.

Lemma absorb_nil (st : parsed) : absorb st [] = st.
Proof.
  destruct st. unfold absorb. simpl. now rewrite !app_nil_r.
Qed.

Lemma absorb_app (st : parsed) (l1 l2 : list DiffLevel) :
  absorb (absorb st l1) l2 = absorb st (l1 ++ l2).
Proof.
  unfold absorb. simpl.
  rewrite !filter_app, !map_app, !flat_map_app, <- !app_assoc. reflexivity.
Qed.

Lemma absorb_with_distance (st : parsed) (v : report_value)
  (levels : list DiffLevel) :
  absorb (with_distance st v) levels = with_distance (absorb st levels) v.
Proof. reflexivity. Qed.

(** One pass of the loop body on a level that has a side present. *)
Lemma parse_level_absorb (st : parsed) (lvl : DiffLevel) :
  is_class Invalid lvl = false -> parse_level st lvl = inr (absorb st [lvl]).
Proof.
  unfold parse_level, absorb, is_class, classify, leaf_keys_t1, leaf_keys_t2.
  simpl filter. unfold is_class, classify.
  destruct (is_not_present (t1 lvl)), (is_not_present (t2 lvl));
    simpl; intros H; try discriminate; rewrite ?app_nil_r; reflexivity.
Qed.

Lemma parse_level_invalid (st : parsed) (lvl : DiffLevel) :
  is_class Invalid lvl = true -> parse_level st lvl = inl ValueError.
Proof.
  unfold parse_level, is_class, classify.
  destruct (is_not_present (t1 lvl)), (is_not_present (t2 lvl));
    simpl; intros H; try discriminate; reflexivity.
Qed.

Lemma parse_levels_absorb (levels : list DiffLevel) :
  forall st,
    forallb (fun lvl => negb (is_class Invalid lvl)) levels = true ->
    parse_levels st levels = inr (absorb st levels).
Proof.
  induction levels as [|lvl levels IH]; intros st H; simpl.
  - now rewrite absorb_nil.
  - simpl in H. apply andb_true_iff in H. destruct H as [H1 H2].
    apply negb_true_iff in H1.
    rewrite (parse_level_absorb st lvl H1). simpl.
    rewrite (IH _ H2), absorb_app. reflexivity.
Qed.

Lemma parse_levels_invalid (levels : list DiffLevel) :
  forall st,
    existsb (is_class Invalid) levels = true ->
    parse_levels st levels = inl ValueError.
Proof.
  induction levels as [|lvl levels IH]; intros st H.
  - discriminate.
  - cbn [existsb] in H. cbn [parse_levels].
    destruct (is_class Invalid lvl) eqn:E.
    + now rewrite (parse_level_invalid st lvl E).
    + rewrite (parse_level_absorb st lvl E). simpl bind. apply IH. exact H.
Qed.

Lemma entries_cons (item : string * report_value) (dd : report) :
  entries (item :: dd)
  = (if bears_metric item then [] else levels_of item) ++ entries dd.
Proof.
  unfold entries. simpl. destruct (bears_metric item); reflexivity.
Qed.

Lemma last_cons_default {A} (l : list A) (x d : A) :
  last (x :: l) d = last l x.
Proof.
  revert x d; induction l as [|y l IH]; intros x d; [reflexivity|].
  change (last (x :: y :: l) d) with (last (y :: l) d).
  now rewrite (IH y d), (IH y x).
Qed.

Lemma parse_items_absorb (REPORT_KEYS : list string) (dd : report) :
  forall st,
    keys_ok REPORT_KEYS dd = true -> sides_ok dd = true ->
    parse_items REPORT_KEYS st dd
    = inr (with_distance (absorb st (entries dd))
             (metric_of dd (deep_distance st))).
Proof.
  unfold sides_ok.
  induction dd as [|[k v] dd IH]; intros st Hk Hs.
  - simpl. rewrite absorb_nil. now destruct st.
  - simpl in Hk. apply andb_true_iff in Hk. destruct Hk as [Hk1 Hk2].
    rewrite entries_cons in Hs. rewrite entries_cons.
    unfold metric_of. simpl filter.
    unfold bears_metric in *. simpl fst in *. simpl parse_items.
    destruct (String.eqb k deep_distance_key) eqn:Ek.
    + simpl bind. simpl app in *.
      rewrite (IH _ Hk2 Hs). unfold metric_of, bears_metric.
      cbn [map snd deep_distance].
      rewrite (last_cons_default _ v (deep_distance st)). reflexivity.
    + simpl in Hk1. apply andb_true_iff in Hk1. destruct Hk1 as [Hk1 Hv].
      rewrite Hk1. simpl negb. cbv iota.
      destruct v as [levels|x]; [|discriminate].
      unfold levels_of in *. simpl snd in *.
      rewrite forallb_app in Hs. apply andb_true_iff in Hs.
      destruct Hs as [Hs1 Hs2].
      rewrite (parse_levels_absorb levels st Hs1). simpl bind.
      rewrite (IH _ Hk2 Hs2), absorb_app. reflexivity.
Qed.

(** C3: a report whose keys are deepdiff's and whose entries all have a side
    present is parsed to a result; every entry is recorded in exactly one of
    the three classes - added (A-side not present): its B-path and B-side
    leaves; removed (B-side not present): its A-path and A-side leaves;
    altered (both present): both paths and both leaf sets - no entry is
    dropped, and the items bearing the metric only set [deep_distance]. *)
Theorem parse_deepdiff_classifies (REPORT_KEYS : list string) (dd : report) :
  keys_ok REPORT_KEYS dd = true -> sides_ok dd = true ->
  exists res,
    parse_deepdiff REPORT_KEYS dd = inr res
    /\ paths_added res
       = map path_list_to_t2 (filter (is_class Added) (entries dd))
    /\ leaf_paths_added res
       = flat_map leaf_keys_t2 (filter (is_class Added) (entries dd))
    /\ paths_removed res
       = map path_list_to_t1 (filter (is_class Removed) (entries dd))
    /\ leaf_paths_removed res
       = flat_map leaf_keys_t1 (filter (is_class Removed) (entries dd))
    /\ paths_altered_1 res
       = map path_list_to_t1 (filter (is_class Altered) (entries dd))
    /\ paths_altered_2 res
       = map path_list_to_t2 (filter (is_class Altered) (entries dd))
    /\ leaf_paths_altered_1 res
       = flat_map leaf_keys_t1 (filter (is_class Altered) (entries dd))
    /\ leaf_paths_altered_2 res
       = flat_map leaf_keys_t2 (filter (is_class Altered) (entries dd))
    /\ List.length (paths_added res) + List.length (paths_removed res)
       + List.length (paths_altered_1 res) = List.length (entries dd)
    /\ Forall (fun lvl =>
                 (is_class Added lvl = true /\ is_class Removed lvl = false
                  /\ is_class Altered lvl = false)
                 \/ (is_class Added lvl = false /\ is_class Removed lvl = true
                     /\ is_class Altered lvl = false)
                 \/ (is_class Added lvl = false /\ is_class Removed lvl = false
                     /\ is_class Altered lvl = true)) (entries dd)
    /\ deep_distance res = metric_of dd (RNumber 0).
Proof.
  intros Hk Hs. eexists. split.
  - unfold parse_deepdiff. apply (parse_items_absorb _ _ _ Hk Hs).
  - assert (HF : Forall (fun lvl => is_class Invalid lvl = false) (entries dd)).
    { unfold sides_ok in Hs. rewrite forallb_forall in Hs.
      apply Forall_forall. intros lvl Hl. apply negb_true_iff. now apply Hs. }
    simpl. repeat (split; [reflexivity|]). split; [|split; [|reflexivity]].
    + rewrite !length_map.
      induction HF as [|lvl l Hl _ IH]; [reflexivity|]. cbn [filter].
      destruct (classify_cases lvl) as [C | [C | [C | C]]];
        destruct C as [C1 [C2 [C3 C4]]]; rewrite C1, C2, C3;
        cbn [List.length]; try lia. congruence.
    + eapply Forall_impl; [|exact HF]. intros lvl Hl. cbv beta in Hl.
      destruct (classify_cases lvl) as [C | [C | [C | C]]];
        destruct C as [C1 [C2 [C3 C4]]]; try tauto. congruence.
Qed.

Lemma parse_deepdiff_classifies_witness :
  keys_ok ["values_changed"; "iterable_item_added"; "iterable_item_removed"]%string
    [("values_changed"%string,
      RLevels [mkLevel (VInt 1) (VInt 2) [KStr "a"; KStr "b"] [KStr "a"; KStr "b"]]);
     ("deep_distance"%string, RNumber (1 # 4));
     ("iterable_item_added"%string,
      RLevels [mkLevel VNotPresent (VDict [(KStr "u", VStr "g")])
                 [KStr "c"; KInt 2] [KStr "c"; KInt 1]])] = true
  /\ sides_ok
       [("values_changed"%string,
         RLevels [mkLevel (VInt 1) (VInt 2) [KStr "a"; KStr "b"] [KStr "a"; KStr "b"]]);
        ("deep_distance"%string, RNumber (1 # 4));
        ("iterable_item_added"%string,
         RLevels [mkLevel VNotPresent (VDict [(KStr "u", VStr "g")])
                    [KStr "c"; KInt 2] [KStr "c"; KInt 1]])] = true
  /\ exists res,
       parse_deepdiff
         ["values_changed"; "iterable_item_added"; "iterable_item_removed"]%string
         [("values_changed"%string,
           RLevels [mkLevel (VInt 1) (VInt 2) [KStr "a"; KStr "b"] [KStr "a"; KStr "b"]]);
          ("deep_distance"%string, RNumber (1 # 4));
          ("iterable_item_added"%string,
           RLevels [mkLevel VNotPresent (VDict [(KStr "u", VStr "g")])
                      [KStr "c"; KInt 2] [KStr "c"; KInt 1]])] = inr res
       /\ paths_added res = [[KStr "c"; KInt 1]]
       /\ leaf_paths_added res = [[KStr "c"; KInt 1; KStr "u"]]
       /\ leaf_paths_altered_1 res = [[KStr "a"; KStr "b"]]
       /\ deep_distance res = RNumber (1 # 4).
Proof.
  split; [reflexivity|]. split; [reflexivity|].
  destruct (parse_deepdiff_classifies
              ["values_changed"; "iterable_item_added"; "iterable_item_removed"]%string
              [("values_changed"%string,
                RLevels [mkLevel (VInt 1) (VInt 2)
                           [KStr "a"; KStr "b"] [KStr "a"; KStr "b"]]);
               ("deep_distance"%string, RNumber (1 # 4));
               ("iterable_item_added"%string,
                RLevels [mkLevel VNotPresent (VDict [(KStr "u", VStr "g")])
                           [KStr "c"; KInt 2] [KStr "c"; KInt 1]])]
              eq_refl eq_refl)
    as [res [H [Ha [Hla [_ [_ [_ [_ [Hl1 [_ [_ [_ Hd]]]]]]]]]]]].
  exists res. repeat split; assumption.
Defined.

(** ** [parse_deepdiff] rejects an entry absent on both sides *)

Lemma existsb_false_forallb_negb {A} (f : A -> bool) (l : list A) :
  existsb f l = false -> forallb (fun a => negb (f a)) l = true.
Proof.
  induction l as [|a l IH]; simpl; [reflexivity|].
  destruct (f a); simpl; [discriminate | exact IH].
Qed.

Lemma parse_items_invalid (REPORT_KEYS : list string) (dd : report) :
  forall st,
    existsb (is_class Invalid) (entries dd) = true ->
    (exists e, parse_items REPORT_KEYS st dd = inl e)
    /\ (keys_ok REPORT_KEYS dd = true ->
        parse_items REPORT_KEYS st dd = inl ValueError).
Proof.
  induction dd as [|[k v] dd IH]; intros st H.
  - discriminate.
  - rewrite entries_cons in H. unfold bears_metric in H. simpl fst in H.
    cbn [parse_items parse_item keys_ok forallb].
    unfold bears_metric. simpl fst. simpl snd.
    destruct (String.eqb k deep_distance_key) eqn:Ek.
    + simpl bind. simpl app in H. simpl orb.
      destruct (IH (mkParsed v (paths_added st) (paths_removed st)
                      (paths_altered_1 st) (paths_altered_2 st)
                      (leaf_paths_added st) (leaf_paths_removed st)
                      (leaf_paths_altered_1 st) (leaf_paths_altered_2 st)) H)
        as [IH1 IH2].
      split; [exact IH1 | exact IH2].
    + simpl orb.
      destruct (existsb (String.eqb k) REPORT_KEYS) eqn:Er; simpl negb; cbv iota.
      2:{ split; [exists AssertionError; reflexivity | discriminate]. }
      destruct v as [levels|x].
      2:{ split; [exists TypeError; reflexivity | discriminate]. }
      unfold levels_of in H. simpl snd in H.
      rewrite existsb_app in H.
      destruct (existsb (is_class Invalid) levels) eqn:El.
      * rewrite (parse_levels_invalid levels st El). simpl bind.
        split; [exists ValueError; reflexivity | reflexivity].
      * rewrite (parse_levels_absorb levels st
                   (existsb_false_forallb_negb _ _ El)).
        simpl bind. simpl orb in H. simpl andb.
        destruct (IH (absorb st levels) H) as [IH1 IH2].
        split; [exact IH1 | exact IH2].
Qed.

(** C4: a report with an entry whose A-side and B-side are both the
    not-present sentinel is never parsed to a result: [parse_deepdiff]
    raises, and it raises [ValueError] whenever the report keys are
    deepdiff's. *)
Theorem parse_deepdiff_both_absent (REPORT_KEYS : list string) (dd : report)
  (lvl : DiffLevel) :
  In lvl (entries dd) ->
  t1 lvl = VNotPresent -> t2 lvl = VNotPresent ->
  (exists e, parse_deepdiff REPORT_KEYS dd = inl e)
  /\ (keys_ok REPORT_KEYS dd = true ->
      parse_deepdiff REPORT_KEYS dd = inl ValueError).
Proof.
  intros Hin H1 H2. apply parse_items_invalid.
  apply existsb_exists. exists lvl. split; [exact Hin|].
  unfold is_class, classify. now rewrite H1, H2.
Qed.

Lemma parse_deepdiff_both_absent_witness :
  In (mkLevel VNotPresent VNotPresent [KStr "a"] [KStr "a"])
    (entries
       [("values_changed"%string,
         RLevels [mkLevel (VInt 1) (VInt 2) [KStr "b"] [KStr "b"];
                  mkLevel VNotPresent VNotPresent [KStr "a"] [KStr "a"]])])
  /\ keys_ok ["values_changed"%string]
       [("values_changed"%string,
         RLevels [mkLevel (VInt 1) (VInt 2) [KStr "b"] [KStr "b"];
                  mkLevel VNotPresent VNotPresent [KStr "a"] [KStr "a"]])] = true
  /\ parse_deepdiff ["values_changed"%string]
       [("values_changed"%string,
         RLevels [mkLevel (VInt 1) (VInt 2) [KStr "b"] [KStr "b"];
                  mkLevel VNotPresent VNotPresent [KStr "a"] [KStr "a"]])]
     = inl ValueError.
Proof.
  split; [simpl; right; left; reflexivity|]. split; [reflexivity|].
  apply (parse_deepdiff_both_absent ["values_changed"%string]
           [("values_changed"%string,
             RLevels [mkLevel (VInt 1) (VInt 2) [KStr "b"] [KStr "b"];
                      mkLevel VNotPresent VNotPresent [KStr "a"] [KStr "a"]])]
           (mkLevel VNotPresent VNotPresent [KStr "a"] [KStr "a"]));
    [simpl; right; left; reflexivity | reflexivity | reflexivity | reflexivity].
Defined.

(** ** The enumeration of [itertools.permutations] *)

Lemma picks_perm {A} (pool : list A) (x : A) (rest : list A) :
  In (x, rest) (picks pool) -> Permutation pool (x :: rest).
Proof.
  revert x rest; induction pool as [|y pool IH]; intros x rest H; simpl in H.
  - contradiction.
  - destruct H as [H | H].
    + inversion H; subst. reflexivity.
    + apply in_map_iff in H. destruct H as [[x' rest'] [E Hin]].
      simpl in E. inversion E; subst.
      rewrite (IH _ _ Hin). apply perm_swap.
Qed.

Lemma picks_split {A} (l1 l2 : list A) (x : A) :
  In (x, l1 ++ l2) (picks (l1 ++ x :: l2)).
Proof.
  induction l1 as [|y l1 IH]; simpl.
  - now left.
  - right. apply in_map_iff. exists (x, l1 ++ l2). split; [reflexivity | exact IH].
Qed.

(** Every enumerated tuple has [r] elements and is a selection. *)
Lemma permutations_sound {A} (r : nat) :
  forall (pool m : list A),
    In m (permutations pool r) -> List.length m = r /\ selection pool m.
Proof.
  induction r as [|r IH]; intros pool m H; simpl in H.
  - destruct H as [<- | []]. split; [reflexivity|].
    exists pool. reflexivity.
  - apply in_flat_map in H. destruct H as [[x rest] [Hp Hm]].
    apply in_map_iff in Hm. destruct Hm as [m' [<- Hm']]. simpl in *.
    destruct (IH _ _ Hm') as [Hl [unused Hu]]. split; [now rewrite Hl|].
    exists unused. rewrite (picks_perm _ _ _ Hp). simpl.
    now apply perm_skip.
Qed.

(** Every selection of [r] elements is enumerated. *)
Lemma permutations_complete {A} (r : nat) :
  forall (pool m : list A),
    List.length m = r -> selection pool m -> In m (permutations pool r).
Proof.
  induction r as [|r IH]; intros pool m Hl [unused Hu].
  - destruct m; [now left | discriminate].
  - destruct m as [|x m]; [discriminate|]. simpl in Hl.
    assert (Hx : In x pool).
    { apply (Permutation_in x (Permutation_sym Hu)). now left. }
    apply in_split in Hx. destruct Hx as [l1 [l2 ->]].
    simpl. apply in_flat_map. exists (x, l1 ++ l2).
    split; [apply picks_split|].
    simpl. apply in_map. apply IH; [lia|].
    exists unused. simpl in Hu.
    apply Permutation_sym, Permutation_cons_app_inv in Hu.
    now apply Permutation_sym.
Qed.

Lemma permutations_nonempty {A} (pool : list A) (r : nat) :
  r <= List.length pool -> permutations pool r <> [].
Proof.
  intros H E.
  assert (Hin : In (firstn r pool) (permutations pool r)).
  { apply permutations_complete.
    - apply firstn_length_le, H.
    - exists (skipn r pool). now rewrite firstn_skipn. }
  rewrite E in Hin. contradiction.
Qed.

Lemma permutations_too_long {A} (pool : list A) (r : nat) :
  List.length pool < r -> permutations pool r = [].
Proof.
  intros H. destruct (permutations pool r) as [|m ms] eqn:E; [reflexivity|].
  assert (Hin : In m (permutations pool r)) by (rewrite E; now left).
  apply permutations_sound in Hin. destruct Hin as [Hl [unused Hu]].
  apply Permutation_length in Hu. rewrite length_app in Hu. lia.
Qed.

Lemma selection_incl {A} (pool m : list A) :
  selection pool m -> incl m pool.
Proof.
  intros [unused Hu] x Hx.
  apply (Permutation_in x (Permutation_sym Hu)), in_or_app. now left.
Qed.

Example permutations_order :
  permutations [1; 2; 3] 2 = [[1; 2]; [1; 3]; [2; 1]; [2; 3]; [3; 1]; [3; 2]].
Proof. reflexivity. Qed.

(** ** The search of [find_best_match] *)

(** The inner loop computes the cost of the match on top of [acc]. *)
Lemma match_distance_cost (distance_matrix : list (list Z))
  (pairs : list (Z * option Z)) :
  forall (acc c : Z),
    cost distance_matrix pairs = Some c ->
    match_distance distance_matrix pairs acc = inr (acc + c)%Z.
Proof.
  induction pairs as [|[i1 [i2|]] pairs IH]; intros acc c H; simpl in *.
  - inversion H; subst. now rewrite Z.add_0_r.
  - destruct (getitem distance_matrix i1) as [e|row]; [discriminate|].
    simpl. destruct (getitem row i2) as [e|d]; [discriminate|]. simpl.
    destruct (cost distance_matrix pairs) as [c'|]; [|discriminate].
    inversion H; subst. rewrite (IH _ c' eq_refl). f_equal. lia.
  - now apply IH.
Qed.

(** On a total matrix every pairing with a selection has a cost. *)
Lemma cost_defined (distance_matrix : list (list Z)) (indices1 : list Z)
  (indices2 m : list (option Z)) :
  total_on distance_matrix indices1 indices2 -> incl m indices2 ->
  exists c, cost distance_matrix (combine indices1 m) = Some c.
Proof.
  intros Ht. revert m. induction indices1 as [|i1 indices1 IH]; intros m Hm.
  - exists 0%Z. reflexivity.
  - destruct m as [|[i2|] m]; [exists 0%Z; reflexivity | |].
    + assert (Ht' : total_on distance_matrix indices1 indices2).
      { intros a b Ha Hb. apply Ht; [now right | exact Hb]. }
      destruct (IH Ht' m) as [c Hc].
      { intros x Hx. apply Hm. now right. }
      destruct (Ht i1 i2) as [row [d [Hr Hd]]];
        [now left | apply Hm; now left|].
      simpl. rewrite Hr, Hd, Hc. now exists (d + c)%Z.
    + assert (Ht' : total_on distance_matrix indices1 indices2).
      { intros a b Ha Hb. apply Ht; [now right | exact Hb]. }
      destruct (IH Ht' m) as [c Hc].
      { intros x Hx. apply Hm. now right. }
      simpl. now exists c.
Qed.

(** The outer loop keeps the first match of least cost that improves on the
    distance it starts from, and keeps its state when none does. *)
Lemma search_spec (indices1 : list Z) (distance_matrix : list (list Z))
  (match_space : list (list (option Z))) :
  Forall (fun m => exists c,
            cost distance_matrix (combine indices1 m) = Some c) match_space ->
  forall best sol,
    (search indices1 distance_matrix match_space best sol = inr (best, sol)
     /\ Forall (fun m => forall c,
                  cost distance_matrix (combine indices1 m) = Some c ->
                  dist_ltb c best = false) match_space)
    \/ (exists pre m post d,
           match_space = pre ++ m :: post
           /\ search indices1 distance_matrix match_space best sol
              = inr (Fin d, Some m)
           /\ cost distance_matrix (combine indices1 m) = Some d
           /\ dist_ltb d best = true
           /\ Forall (fun m' => forall c,
                        cost distance_matrix (combine indices1 m') = Some c ->
                        (d < c)%Z) pre
           /\ Forall (fun m' => forall c,
                        cost distance_matrix (combine indices1 m') = Some c ->
                        (d <= c)%Z) post).
Proof.
  induction 1 as [|m space [c Hc] _ IH]; intros best sol.
  - left. split; [reflexivity | constructor].
  - cbn [search]. rewrite (match_distance_cost _ _ 0%Z c Hc). simpl bind.
    rewrite ?Z.add_0_l. destruct (dist_ltb c best) eqn:Hlt.
    + right. destruct (IH (Fin c) (Some m)) as [[E Hall] | Himp].
      * exists [], m, space, c. repeat split; try assumption.
        -- constructor.
        -- eapply Forall_impl; [|exact Hall]. intros m' Hm' c' Hc'.
           specialize (Hm' c' Hc'). simpl in Hm'.
           apply Z.ltb_ge in Hm'. exact Hm'.
      * destruct Himp as [pre [m' [post [d [E [Hs [Hd [Hlt' [Hpre Hpost]]]]]]]]].
        simpl in Hlt'. apply Z.ltb_lt in Hlt'.
        exists (m :: pre), m', post, d. repeat split; try assumption.
        -- now rewrite E.
        -- destruct best as [|b]; [reflexivity|]. simpl in *.
           apply Z.ltb_lt in Hlt. apply Z.ltb_lt. lia.
        -- constructor; [|exact Hpre]. intros c' Hc'.
           rewrite Hc in Hc'. inversion Hc'; subst. exact Hlt'.
    + destruct (IH best sol) as [[E Hall] | Himp].
      * left. split; [exact E|]. constructor; [|exact Hall].
        intros c' Hc'. rewrite Hc in Hc'. inversion Hc'; subst. exact Hlt.
      * right.
        destruct Himp as [pre [m' [post [d [E [Hs [Hd [Hlt' [Hpre Hpost]]]]]]]]].
        exists (m :: pre), m', post, d. repeat split; try assumption.
        -- now rewrite E.
        -- constructor; [|exact Hpre]. intros c' Hc'.
           rewrite Hc in Hc'. inversion Hc'; subst.
           destruct best as [|b]; [discriminate|]. simpl in *.
           apply Z.ltb_ge in Hlt. apply Z.ltb_lt in Hlt'. lia.
Qed.

Section DictLookup.
Context {K V : Type}.
Variable eqb : K -> K -> bool.
Hypothesis eqb_eq : forall a b, eqb a b = true <-> a = b.



End DictLookup.


Lemma in_split_cases {A} (pre post : list A) (m x : A) :
  In x (pre ++ m :: post) -> In x pre \/ x = m \/ In x post.
Proof.
  intros H. apply in_app_or in H. destruct H as [H | [H | H]]; auto.
Qed.



(** C5: with fewer elements in [indices2] than in [indices1] there is no
    match to try, and [find_best_match] raises on its assertion instead of
    returning an assignment. *)
Theorem find_best_match_too_few (indices1 : list Z) (indices2 : list (option Z))
  (distance_matrix : list (list Z)) :
  List.length indices2 < List.length indices1 ->
  find_best_match indices1 indices2 distance_matrix = inl AssertionError.
Proof.
  intros H. unfold find_best_match.
  rewrite (permutations_too_long indices2 _ H). reflexivity.
Qed.

Lemma find_best_match_too_few_witness :
  List.length [Some 4%Z] < List.length [0; 1]%Z
  /\ find_best_match [0; 1]%Z [Some 4%Z] [[1; 5]; [5; 1]]%Z
     = inl AssertionError.
Proof.
  split; [simpl; lia|].
  apply (find_best_match_too_few [0; 1]%Z [Some 4%Z] [[1; 5]; [5; 1]]%Z).
  simpl; lia.
Defined.

(** C2, as stated, fails: the placeholder pairing costs 0, is tried first and
    is never beaten by the pairing at distance 3. *)
Lemma placeholder_beats_real_match :
  find_best_match [0]%Z [None; Some 1%Z] [[7; 3]]%Z <> inr [(0%Z, Some 1%Z)].
Proof. vm_compute. discriminate. Qed.

(** C2 (amended): for [indices1 = [0]], [indices2 = [placeholder, 1]] and
    [distance_matrix[0][1] = 3], [find_best_match] returns [{0: None}]: the
    zero-cost pairing with the placeholder is preferred over the real match
    at distance 3. *)
Theorem find_best_match_placeholder (distance_matrix : list (list Z))
  (row : list Z) :
  getitem distance_matrix 0%Z = inr row -> getitem row 1%Z = inr 3%Z ->
  find_best_match [0]%Z [None; Some 1%Z] distance_matrix
  = inr [(0%Z, None)].
Proof.
  intros Hr Hd. unfold find_best_match. cbn [List.length permutations picks
    flat_map map app fst snd search combine match_distance].
  rewrite Hr. cbn [bind]. rewrite Hd. reflexivity.
Qed.

Lemma find_best_match_placeholder_witness :
  getitem [[7; 3]]%Z 0%Z = inr [7; 3]%Z
  /\ getitem [7; 3]%Z 1%Z = inr 3%Z
  /\ find_best_match [0]%Z [None; Some 1%Z] [[7; 3]]%Z = inr [(0%Z, None)].
Proof.
  split; [reflexivity|]. split; [reflexivity|].
  apply (find_best_match_placeholder [[7; 3]]%Z [7; 3]%Z); reflexivity.
Defined.

(** ** The entries of [flatten] are the leaf positions of the structure *)

Lemma in_extend_enumerate_inv {A B} (f : nat -> A -> list B) (l : list A)
  (e : B) :
  forall i,
    In e (extend_enumerate f i l) ->
    exists n a, nth_error l n = Some a /\ In e (f (i + n) a).
Proof.
  induction l as [|a l IH]; intros i H; simpl in H; [contradiction|].
  apply in_app_or in H. destruct H as [H | H].
  - exists 0, a. split; [reflexivity | now rewrite Nat.add_0_r].
  - destruct (IH _ H) as [n [b [Hn Hb]]]. exists (S n), b.
    split; [exact Hn|]. now replace (i + S n) with (S i + n) by lia.
Qed.

Lemma at_path_leaf (p : path) :
  forall v c,
    wf_value v = true -> at_path v p = Some c ->
    is_leaf_position c = true -> In (p, leaf_value c) (rel_leaves v).
Proof.
  induction p as [|seg p IH]; intros v c Hwf Hat Hc.
  - simpl in Hat. inversion Hat; subst.
    destruct c as [| | | | |[|]|[|]]; try discriminate; simpl; now left.
  - destruct v as [| | | | |items|elems]; simpl in Hat; try discriminate.
    + destruct (dict_get key_eqb items seg) as [v'|] eqn:Hg; [|discriminate].
      apply (dict_get_some_in key_eqb key_eqb_eq) in Hg.
      destruct (wf_value_dict items Hwf) as [_ Hvs].
      rewrite Forall_forall in Hvs. pose proof (Hvs _ Hg) as Hwf'.
      destruct items as [|kv items]; [contradiction|].
      change (rel_leaves (VDict (kv :: items))) with
        (flat_map (fun kv => map (fun e => (fst kv :: fst e, snd e))
                               (rel_leaves (snd kv))) (kv :: items)).
      apply in_flat_map. exists (seg, v'). split; [exact Hg|].
      apply (in_map (fun e => (seg :: fst e, snd e)) _ (p, leaf_value c)).
      now apply (IH v' c).
    + destruct seg as [|i|]; try discriminate.
      destruct (i <? 0)%Z eqn:Hi; [discriminate|].
      destruct (nth_error elems (Z.to_nat i)) as [v'|] eqn:Hn; [|discriminate].
      pose proof (wf_value_list elems Hwf) as Hvs.
      rewrite Forall_forall in Hvs.
      pose proof (Hvs _ (nth_error_In _ _ Hn)) as Hwf'.
      destruct elems as [|x elems]; [destruct (Z.to_nat i); discriminate|].
      change (rel_leaves (VList (x :: elems))) with
        (extend_enumerate
           (fun j v' => map (fun e => (KInt (Z.of_nat j) :: fst e, snd e))
                          (rel_leaves v')) 0 (x :: elems)).
      pose proof (in_extend_enumerate rel_leaves (x :: elems) (Z.to_nat i) v'
                    (p, leaf_value c) Hn (IH v' c Hwf' Hat Hc) 0) as G.
      simpl fst in G. simpl snd in G. rewrite Nat.add_0_l in G.
      rewrite Z2Nat.id in G by (apply Z.ltb_ge in Hi; lia). exact G.
Qed.

Lemma rel_leaves_at_path (v : value) :
  wf_value v = true ->
  forall p x,
    In (p, x) (rel_leaves v) ->
    exists c, at_path v p = Some c /\ is_leaf_position c = true
              /\ x = leaf_value c.
Proof.
  induction v as [v Hv | items IH | elems IH] using value_nested_ind;
    intros Hwf p x Hin.
  - destruct v; try discriminate; simpl in Hin;
      destruct Hin as [Hin | []]; inversion Hin; subst;
      eexists; (split; [reflexivity|]); split; reflexivity.
  - destruct (wf_value_dict items Hwf) as [Hk Hvs].
    destruct items as [|kv items].
    { simpl in Hin. destruct Hin as [Hin | []]. inversion Hin; subst.
      exists (VDict []). repeat split. }
    change (rel_leaves (VDict (kv :: items))) with
      (flat_map (fun kv => map (fun e => (fst kv :: fst e, snd e))
                             (rel_leaves (snd kv))) (kv :: items)) in Hin.
    apply in_flat_map in Hin. destruct Hin as [[k v'] [Hkv Hin]].
    apply in_map_iff in Hin. destruct Hin as [[p' x'] [E Hin]].
    simpl in E. inversion E; subst. simpl in Hin.
    rewrite Forall_forall in IH, Hvs.
    destruct (IH _ Hkv (Hvs _ Hkv) p' x Hin) as [c [Hat [Hc Hx]]].
    exists c. split; [|split; assumption].
    cbn [at_path].
    now rewrite (dict_get_in key_eqb key_eqb_eq _ _ _ Hk Hkv).
  - pose proof (wf_value_list elems Hwf) as Hvs.
    destruct elems as [|y elems].
    { simpl in Hin. destruct Hin as [Hin | []]. inversion Hin; subst.
      exists (VList []). repeat split. }
    change (rel_leaves (VList (y :: elems))) with
      (extend_enumerate
         (fun i v' => map (fun e => (KInt (Z.of_nat i) :: fst e, snd e))
                        (rel_leaves v')) 0 (y :: elems)) in Hin.
    apply in_extend_enumerate_inv in Hin.
    destruct Hin as [n [v' [Hn Hin]]]. rewrite Nat.add_0_l in Hin.
    apply in_map_iff in Hin. destruct Hin as [[p' x'] [E Hin]].
    simpl in E. inversion E; subst.
    rewrite Forall_forall in IH, Hvs.
    pose proof (nth_error_In _ _ Hn) as Hv'.
    destruct (IH _ Hv' (Hvs _ Hv') p' x Hin) as [c [Hat [Hc Hx]]].
    exists c. split; [|split; assumption].
    cbn [at_path].
    destruct (Z.of_nat n <? 0)%Z eqn:Hneg; [apply Z.ltb_lt in Hneg; lia|].
    now rewrite Nat2Z.id, Hn.
Qed.

Lemma flatten_rel_leaves (d : list (key * value)) :
  wf_dict d = true -> d <> [] -> flatten d None = rel_leaves (VDict d).
Proof.
  intros Hwf Hd. rewrite (flatten_leaves d Hwf).
  destruct d as [|kv d]; [congruence | reflexivity].
Qed.

Lemma at_path_app (p q : path) :
  forall v,
    at_path v (p ++ q)
    = match at_path v p with
      | Some c => at_path c q
      | None => None
      end.
Proof.
  induction p as [|seg p IH]; intros v; [reflexivity|].
  simpl. destruct v as [| | | | |items|elems]; try reflexivity.
  - destruct (dict_get key_eqb items seg); [apply IH | reflexivity].
  - destruct seg; try reflexivity.
    destruct (z <? 0)%Z; [reflexivity|].
    destruct (nth_error elems (Z.to_nat z)); [apply IH | reflexivity].
Qed.

Lemma at_path_below_leaf (c : value) (q : path) :
  is_leaf_position c = true -> at_path c q <> None -> q = [].
Proof.
  intros Hc Hq. destruct q as [|seg q]; [reflexivity|]. exfalso. apply Hq.
  destruct c as [| | | | |[|]|[|]]; try discriminate; try reflexivity.
  simpl. destruct seg; try reflexivity.
  destruct (z <? 0)%Z; [reflexivity|]. now destruct (Z.to_nat z).
Qed.

(** X1: a value that is neither a mapping nor a list, found at path [p] of
    a well-formed dictionary, is stored under [p] by [flatten]. *)
Theorem flatten_lookup_scalar (d : list (key * value)) (p : path) (c : value) :
  wf_dict d = true ->
  at_path (VDict d) p = Some c -> is_container c = false ->
  dict_get path_eqb (flatten d None) p = Some c.
Proof.
  intros Hwf Hat Hc.
  assert (Hd : d <> []).
  { intros ->. destruct p as [|seg p]; simpl in Hat; [|discriminate].
    inversion Hat; subst. discriminate. }
  assert (Hl : is_leaf_position c = true)
    by (unfold is_leaf_position; now rewrite Hc).
  pose proof (at_path_leaf p (VDict d) c Hwf Hat Hl) as Hin.
  rewrite (flatten_rel_leaves d Hwf Hd).
  assert (E : leaf_value c = c)
    by (destruct c as [| | | | |[|]|[|]]; try discriminate; reflexivity).
  rewrite E in Hin.
  apply (dict_get_in path_eqb path_eqb_eq); [|exact Hin].
  rewrite <- (flatten_rel_leaves d Hwf Hd). apply flatten_keys_nodup.
Qed.

Lemma flatten_lookup_scalar_witness :
  wf_dict [(KStr "a", VList [VInt 7; VDict [(KStr "b", VStr "x")]])] = true
  /\ at_path (VDict [(KStr "a", VList [VInt 7; VDict [(KStr "b", VStr "x")]])])
       [KStr "a"; KInt 1; KStr "b"] = Some (VStr "x")
  /\ is_container (VStr "x") = false
  /\ dict_get path_eqb
       (flatten [(KStr "a", VList [VInt 7; VDict [(KStr "b", VStr "x")]])] None)
       [KStr "a"; KInt 1; KStr "b"] = Some (VStr "x").
Proof.
  repeat (split; [reflexivity|]).
  apply (flatten_lookup_scalar
           [(KStr "a", VList [VInt 7; VDict [(KStr "b", VStr "x")]])]
           [KStr "a"; KInt 1; KStr "b"] (VStr "x")); reflexivity.
Defined.

(** X2: every entry [p -> x] of the flattening of a well-formed dictionary
    comes from the structure: walking [p] from the top ends on a leaf
    position [c] - a non-container, stored as it is, or an empty container,
    stored as [None] - and [p] is not the empty path. *)
Theorem flatten_entry_is_leaf (d : list (key * value)) (p : path) (x : value) :
  wf_dict d = true ->
  dict_get path_eqb (flatten d None) p = Some x ->
  exists c,
    at_path (VDict d) p = Some c /\ is_leaf_position c = true
    /\ x = leaf_value c /\ p <> [].
Proof.
  intros Hwf Hg.
  apply (dict_get_some_in path_eqb path_eqb_eq) in Hg.
  destruct d as [|kv d]; [contradiction|].
  assert (Hd : kv :: d <> []) by discriminate.
  rewrite (flatten_rel_leaves _ Hwf Hd) in Hg.
  destruct (rel_leaves_at_path _ Hwf p x Hg) as [c [Hat [Hc Hx]]].
  exists c. repeat split; try assumption.
  intros ->. simpl in Hat. inversion Hat; subst. discriminate.
Qed.

Lemma flatten_entry_is_leaf_witness :
  wf_dict [(KStr "a", VList [VInt 7; VList []])] = true
  /\ dict_get path_eqb (flatten [(KStr "a", VList [VInt 7; VList []])] None)
       [KStr "a"; KInt 1] = Some VNone
  /\ exists c,
       at_path (VDict [(KStr "a", VList [VInt 7; VList []])]) [KStr "a"; KInt 1]
       = Some c
       /\ is_leaf_position c = true /\ VNone = leaf_value c.
Proof.
  split; [reflexivity|]. split; [reflexivity|].
  destruct (flatten_entry_is_leaf
              [(KStr "a", VList [VInt 7; VList []])] [KStr "a"; KInt 1] VNone
              eq_refl eq_refl) as [c [H1 [H2 [H3 _]]]].
  exists c. repeat split; assumption.
Defined.

(** X3: the paths of a flattening are leaf paths: in the flattening of a
    well-formed dictionary no path is a proper prefix of another. *)
Theorem flatten_prefix_free (d : list (key * value)) (p q : path) :
  wf_dict d = true ->
  In p (keys (flatten d None)) -> In (p ++ q) (keys (flatten d None)) ->
  q = [].
Proof.
  intros Hwf Hp Hpq.
  destruct d as [|kv d]; [contradiction|].
  assert (Hd : kv :: d <> []) by discriminate.
  rewrite (flatten_rel_leaves _ Hwf Hd) in Hp, Hpq.
  apply in_map_iff in Hp. destruct Hp as [[p1 x1] [E1 H1]].
  apply in_map_iff in Hpq. destruct Hpq as [[p2 x2] [E2 H2]].
  simpl in E1, E2. subst.
  destruct (rel_leaves_at_path _ Hwf _ _ H1) as [c [Hat [Hc _]]].
  destruct (rel_leaves_at_path _ Hwf _ _ H2) as [c' [Hat' _]].
  rewrite at_path_app, Hat in Hat'.
  apply (at_path_below_leaf c q Hc). congruence.
Qed.

Lemma flatten_prefix_free_witness :
  wf_dict [(KStr "a", VDict [(KStr "b", VInt 1)])] = true
  /\ In [KStr "a"; KStr "b"]
       (keys (flatten [(KStr "a", VDict [(KStr "b", VInt 1)])] None))
  /\ In ([KStr "a"; KStr "b"] ++ [])
       (keys (flatten [(KStr "a", VDict [(KStr "b", VInt 1)])] None))
  /\ @nil key = [].
Proof.
  split; [reflexivity|]. split; [simpl; now left|]. split; [simpl; now left|].
  apply (flatten_prefix_free [(KStr "a", VDict [(KStr "b", VInt 1)])]
           [KStr "a"; KStr "b"] []); [reflexivity | simpl; now left | simpl; now left].
Defined.

(** ** [flatten] below a parent key *)

Lemma flatten_item_empty_parent (v : value) (k : key) :
  flatten_item (Some []) k v = flatten_item None k v.
Proof. destruct v as [| | | | |[|]|[|]]; reflexivity. Qed.

(** X4: on a well-formed dictionary, [flatten(d, parent_key)] with a
    non-empty [parent_key] is [flatten(d)] with [parent_key] put in front of
    every path; the empty tuple counts as no parent key at all. *)
Theorem flatten_parent_key (d : list (key * value)) (parent_key : path) :
  wf_dict d = true ->
  (parent_key <> [] ->
   flatten d (Some parent_key)
   = map (fun e => (parent_key ++ fst e, snd e)) (flatten d None))
  /\ flatten d (Some []) = flatten d None.
Proof.
  intros Hwf. split.
  - intros Hp. destruct (wf_value_dict d Hwf) as [Hk Hvs].
    rewrite (flatten_leaves d Hwf), map_flat_map.
    rewrite flatten_with; try assumption.
    + apply flat_map_ext. intros kv. rewrite map_map. apply map_ext.
      intros e. simpl. now rewrite (new_key_of_some _ _ Hp), <- app_assoc.
    + rewrite Forall_forall in *. intros kv Hkv parent k.
      apply flatten_item_leaves. now apply Hvs.
  - unfold flatten. f_equal. apply flat_map_ext. intros kv.
    apply flatten_item_empty_parent.
Qed.

Lemma flatten_parent_key_witness :
  wf_dict [(KStr "b", VList [VInt 1; VDict []])] = true
  /\ [KStr "a"; KInt 3] <> []
  /\ flatten [(KStr "b", VList [VInt 1; VDict []])] (Some [KStr "a"; KInt 3])
     = map (fun e => ([KStr "a"; KInt 3] ++ fst e, snd e))
         (flatten [(KStr "b", VList [VInt 1; VDict []])] None).
Proof.
  split; [reflexivity|]. split; [discriminate|].
  apply (proj1 (flatten_parent_key [(KStr "b", VList [VInt 1; VDict []])]
                  [KStr "a"; KInt 3] eq_refl)).
  discriminate.
Defined.

(** ** [get_dict_depth] and the longest flattened path *)

Lemma list_max_map_S {A} (f : A -> nat) (l : list A) :
  l <> [] -> list_max (map (fun a => S (f a)) l) = S (list_max (map f l)).
Proof.
  induction l as [|a l IH]; intros H; [congruence|].
  destruct l as [|b l]; [simpl; now rewrite !Nat.max_0_r|].
  change (list_max (map (fun a => S (f a)) (a :: b :: l)))
    with (Nat.max (S (f a)) (list_max (map (fun a => S (f a)) (b :: l)))).
  change (list_max (map f (a :: b :: l)))
    with (Nat.max (f a) (list_max (map f (b :: l)))).
  rewrite IH by discriminate. lia.
Qed.

Lemma list_max_flat_map {A B} (g : B -> nat) (f : A -> list B) (l : list A) :
  list_max (map g (flat_map f l))
  = list_max (map (fun a => list_max (map g (f a))) l).
Proof.
  induction l as [|a l IH]; [reflexivity|].
  simpl. now rewrite map_app, list_max_app, IH.
Qed.

Lemma list_max_map_le {A} (f g : A -> nat) (l : list A) :
  Forall (fun a => f a <= g a) l ->
  list_max (map f l) <= list_max (map g l).
Proof.
  induction 1 as [|a l Ha _ IH]; simpl; lia.
Qed.

Lemma rel_leaves_nonempty (v : value) : rel_leaves v <> [].
Proof.
  induction v as [v Hv | items IH | elems IH] using value_nested_ind.
  - destruct v; try discriminate.
  - destruct items as [|[k v'] items]; [discriminate|].
    inversion IH as [|? ? H1 _]; subst. simpl in *.
    destruct (rel_leaves v'); [congruence | discriminate].
  - destruct elems as [|v' elems]; [discriminate|].
    inversion IH as [|? ? H1 _]; subst. simpl.
    destruct (rel_leaves v'); [congruence | discriminate].
Qed.

Lemma longest_path_dict (kv : key * value) (items : list (key * value)) :
  longest_path (rel_leaves (VDict (kv :: items)))
  = S (list_max (map (fun kv => longest_path (rel_leaves (snd kv)))
                   (kv :: items))).
Proof.
  change (rel_leaves (VDict (kv :: items))) with
    (flat_map (fun kv => map (fun e => (fst kv :: fst e, snd e))
                           (rel_leaves (snd kv))) (kv :: items)).
  unfold longest_path. rewrite list_max_flat_map.
  rewrite <- (list_max_map_S
                (fun kv => list_max (map (fun e => List.length (fst e))
                                       (rel_leaves (snd kv)))))
    by discriminate.
  f_equal. apply map_ext. intros x. rewrite map_map. simpl.
  apply (list_max_map_S (fun e => List.length (fst e))), rel_leaves_nonempty.
Qed.

Lemma get_dict_depth_le_longest (v : value) :
  get_dict_depth v <= longest_path (rel_leaves v).
Proof.
  induction v as [v Hv | items IH | elems IH] using value_nested_ind.
  - destruct v; try discriminate; simpl; lia.
  - destruct items as [|kv items]; [simpl; lia|].
    rewrite longest_path_dict.
    change (get_dict_depth (VDict (kv :: items))) with
      (list_max (map (fun kv => get_dict_depth (snd kv)) (kv :: items)) + 1).
    pose proof (list_max_map_le _ _ _ IH). lia.
  - simpl. lia.
Qed.

Lemma get_dict_depth_eq_longest (v : value) :
  list_free v = true -> longest_path (rel_leaves v) = get_dict_depth v.
Proof.
  induction v as [v Hv | items IH | elems IH] using value_nested_ind;
    intros Hf.
  - destruct v; try discriminate; reflexivity.
  - destruct items as [|kv items]; [reflexivity|].
    rewrite longest_path_dict.
    change (get_dict_depth (VDict (kv :: items))) with
      (list_max (map (fun kv => get_dict_depth (snd kv)) (kv :: items)) + 1).
    rewrite Nat.add_1_r. f_equal. f_equal. apply map_ext_in.
    intros x Hx. rewrite Forall_forall in IH. apply IH; [exact Hx|].
    change (list_free (VDict (kv :: items))) with
      (forallb (fun kv => list_free (snd kv)) (kv :: items)) in Hf.
    rewrite forallb_forall in Hf. now apply Hf.
  - discriminate.
Qed.

(** X5: the depth of a well-formed dictionary is at most the length of the
    longest path of its flattening, and is exactly that length when the
    dictionary holds no list: [get_dict_depth] does not look into lists,
    [flatten] does. *)
Theorem get_dict_depth_longest_path (d : list (key * value)) :
  wf_dict d = true ->
  get_dict_depth (VDict d) <= longest_path (flatten d None)
  /\ (list_free (VDict d) = true ->
      longest_path (flatten d None) = get_dict_depth (VDict d)).
Proof.
  intros Hwf. destruct d as [|kv d]; [split; reflexivity|].
  rewrite (flatten_rel_leaves _ Hwf) by discriminate.
  split; [apply get_dict_depth_le_longest | apply get_dict_depth_eq_longest].
Qed.

Lemma get_dict_depth_longest_path_witness :
  wf_dict [(KStr "a", VDict [(KStr "b", VDict [])]); (KStr "c", VInt 1)] = true
  /\ list_free
       (VDict [(KStr "a", VDict [(KStr "b", VDict [])]); (KStr "c", VInt 1)])
     = true
  /\ longest_path
       (flatten [(KStr "a", VDict [(KStr "b", VDict [])]); (KStr "c", VInt 1)]
          None)
     = get_dict_depth
         (VDict [(KStr "a", VDict [(KStr "b", VDict [])]); (KStr "c", VInt 1)]).
Proof.
  split; [reflexivity|]. split; [reflexivity|].
  apply (proj2 (get_dict_depth_longest_path
                  [(KStr "a", VDict [(KStr "b", VDict [])]); (KStr "c", VInt 1)]
                  eq_refl)).
  reflexivity.
Defined.

Example get_dict_depth_ex :
  get_dict_depth
    (VDict [(KStr "a", VDict [(KStr "b", VInt 1)]); (KStr "c", VInt 2)]) = 2
  /\ get_dict_depth (VDict []) = 0
  /\ get_dict_depth (VList [VDict [(KStr "a", VInt 1)]]) = 0.
Proof. repeat split. Qed.

(** X6: [get_dict_depth] stops at a list: a non-empty dictionary none of
    whose values is a dictionary has depth 1, whatever its lists hold. *)
Theorem get_dict_depth_stops_at_lists (kv : key * value)
  (items : list (key * value)) :
  Forall (fun e => match snd e with VDict _ => False | _ => True end)
    (kv :: items) ->
  get_dict_depth (VDict (kv :: items)) = 1.
Proof.
  intros H.
  change (get_dict_depth (VDict (kv :: items))) with
    (list_max (map (fun kv => get_dict_depth (snd kv)) (kv :: items)) + 1).
  assert (E : list_max (map (fun kv => get_dict_depth (snd kv)) (kv :: items))
              = 0).
  { induction H as [|[k v] l Hv _ IH]; [reflexivity|].
    simpl map. simpl list_max. rewrite IH.
    destruct v; try reflexivity. contradiction. }
  now rewrite E.
Qed.

Lemma get_dict_depth_stops_at_lists_witness :
  Forall (fun e => match snd e with VDict _ => False | _ => True end)
    [(KStr "a", VList [VDict [(KStr "b", VDict [(KStr "c", VInt 1)])]]);
     (KStr "d", VNone)]
  /\ get_dict_depth
       (VDict [(KStr "a", VList [VDict [(KStr "b", VDict [(KStr "c", VInt 1)])]]);
               (KStr "d", VNone)])
     = 1.
Proof.
  split; [repeat constructor|].
  apply (get_dict_depth_stops_at_lists
           (KStr "a", VList [VDict [(KStr "b", VDict [(KStr "c", VInt 1)])]])
           [(KStr "d", VNone)]).
  repeat constructor.
Defined.

(** ** [flat_deepdiff_entry] on mappings and lists *)

Lemma resolve_dict (d : list (key * value)) (path_list : path) :
  flat_deepdiff_entry (VDict d) path_list
  = map (fun e => (path_list ++ fst e, snd e)) (flatten d None).
Proof.
  unfold flat_deepdiff_entry.
  apply dict_of_items_nodup; [exact path_eqb_eq|].
  apply nodup_keys_prefix, flatten_keys_nodup.
Qed.

Lemma resolve_list (elems : list value) (path_list : path) :
  wf_value (VList elems) = true ->
  flat_deepdiff_entry (VList elems) path_list
  = map (fun e => (path_list ++ fst e, snd e)) (rel_leaves (VList elems)).
Proof.
  intros Hwf. unfold flat_deepdiff_entry.
  assert (Hd : wf_dict [(KStr dummy_header, VList elems)] = true).
  { unfold wf_dict. cbn [wf_value map fst snd distinct_keys existsb forallb negb
      andb]. cbn [wf_value] in Hwf. now rewrite Hwf. }
  rewrite (flatten_leaves _ Hd). cbn [flat_map fst snd].
  rewrite app_nil_r, map_map. cbn [fst snd tl].
  apply dict_of_items_nodup; [exact path_eqb_eq|].
  apply nodup_keys_prefix, rel_leaves_nodup, Hwf.
Qed.

Lemma resolve_rel_leaves (t : value) (path_list : path) :
  wf_value t = true -> is_container t = true -> t <> VDict [] ->
  flat_deepdiff_entry t path_list
  = map (fun e => (path_list ++ fst e, snd e)) (rel_leaves t).
Proof.
  intros Hwf Hc Hne. destruct t as [| | | | |d|elems]; try discriminate.
  - rewrite resolve_dict. f_equal. apply flatten_rel_leaves; [exact Hwf|].
    congruence.
  - now apply resolve_list.
Qed.

(** X7: on a mapping the resolver returns the flattening of the mapping
    with [path_list] put in front of every path: the dictionary
    comprehension merges no two entries. *)
Theorem resolver_dict_is_flatten (d : list (key * value))
  (path_list : path) :
  flat_deepdiff_entry (VDict d) path_list
  = map (fun e => (path_list ++ fst e, snd e)) (flatten d None)
  /\ List.length (flat_deepdiff_entry (VDict d) path_list)
     = List.length (flatten d None).
Proof.
  rewrite resolve_dict. split; [reflexivity | apply length_map].
Qed.

(** X8: a leaf position [c] found at the non-empty relative path [q] of a
    well-formed mapping or list [t] is stored by the resolver under
    [path_list + q] - as [None] if [c] is an empty container, as [c]
    otherwise; the synthetic header wrapped around a list never shows. *)
Theorem flat_deepdiff_entry_lookup (t : value) (path_list q : path)
  (c : value) :
  wf_value t = true -> is_container t = true -> q <> [] ->
  at_path t q = Some c -> is_leaf_position c = true ->
  dict_get path_eqb (flat_deepdiff_entry t path_list) (path_list ++ q)
  = Some (leaf_value c).
Proof.
  intros Hwf Hc Hq Hat Hl.
  assert (Hne : t <> VDict []).
  { intros ->. destruct q; [congruence | discriminate]. }
  rewrite (resolve_rel_leaves t path_list Hwf Hc Hne).
  apply (dict_get_in path_eqb path_eqb_eq).
  - apply nodup_keys_prefix, rel_leaves_nodup, Hwf.
  - apply (in_map (fun e => (path_list ++ fst e, snd e)) _ (q, leaf_value c)).
    now apply at_path_leaf.
Qed.

Lemma flat_deepdiff_entry_lookup_witness :
  wf_value (VList [VInt 4; VDict [(KStr "u", VList [])]]) = true
  /\ is_container (VList [VInt 4; VDict [(KStr "u", VList [])]]) = true
  /\ [KInt 1; KStr "u"] <> []
  /\ at_path (VList [VInt 4; VDict [(KStr "u", VList [])]]) [KInt 1; KStr "u"]
     = Some (VList [])
  /\ is_leaf_position (VList []) = true
  /\ dict_get path_eqb
       (flat_deepdiff_entry (VList [VInt 4; VDict [(KStr "u", VList [])]])
          [KStr "inputs"])
       ([KStr "inputs"] ++ [KInt 1; KStr "u"])
     = Some (leaf_value (VList [])).
Proof.
  split; [reflexivity|]. split; [reflexivity|]. split; [discriminate|].
  split; [reflexivity|]. split; [reflexivity|].
  apply (flat_deepdiff_entry_lookup
           (VList [VInt 4; VDict [(KStr "u", VList [])]])
           [KStr "inputs"] [KInt 1; KStr "u"] (VList []));
    [reflexivity | reflexivity | discriminate | reflexivity | reflexivity].
Defined.

(** X9: every path the resolver returns for a well-formed value extends
    [path_list], and every value it returns is a leaf. *)
Theorem flat_deepdiff_entry_below_prefix (t : value) (path_list : path) :
  wf_value t = true ->
  Forall (fun e => (exists q, fst e = path_list ++ q)
                   /\ is_container (snd e) = false)
    (flat_deepdiff_entry t path_list).
Proof.
  intros Hwf.
  assert (G : forall l : list (path * value),
    Forall (fun e => is_container (snd e) = false) l ->
    Forall (fun e => (exists q, fst e = path_list ++ q)
                     /\ is_container (snd e) = false)
      (map (fun e => (path_list ++ fst e, snd e)) l)).
  { intros l Hl. apply Forall_forall. intros e He.
    apply in_map_iff in He. destruct He as [e' [<- He']].
    rewrite Forall_forall in Hl. simpl.
    split; [now exists (fst e') | now apply Hl]. }
  destruct t as [| | | | |d|elems];
    try (repeat constructor; exists []; simpl; now rewrite app_nil_r).
  - rewrite resolve_dict. apply G, flatten_values.
  - rewrite (resolve_list elems path_list Hwf). apply G.
    apply Forall_forall. intros [p x] Hin.
    destruct (rel_leaves_at_path _ Hwf p x Hin) as [c [_ [Hc ->]]]. simpl.
    destruct c as [| | | | |[|]|[|]]; try discriminate; reflexivity.
Qed.

Lemma flat_deepdiff_entry_below_prefix_witness :
  wf_value (VList [VInt 4; VDict [(KStr "u", VList [])]]) = true
  /\ Forall (fun e => (exists q, fst e = [KStr "inputs"] ++ q)
                      /\ is_container (snd e) = false)
       (flat_deepdiff_entry (VList [VInt 4; VDict [(KStr "u", VList [])]])
          [KStr "inputs"]).
Proof.
  split; [reflexivity|].
  apply (flat_deepdiff_entry_below_prefix
           (VList [VInt 4; VDict [(KStr "u", VList [])]]) [KStr "inputs"]).
  reflexivity.
Defined.

(** ** When [parse_deepdiff] returns, and what it raises *)

Lemma parse_levels_returns (levels : list DiffLevel) (st st' : parsed) :
  parse_levels st levels = inr st' ->
  forallb (fun lvl => negb (is_class Invalid lvl)) levels = true.
Proof.
  intros H. apply existsb_false_forallb_negb.
  destruct (existsb (is_class Invalid) levels) eqn:E; [|reflexivity].
  rewrite (parse_levels_invalid levels st E) in H. discriminate.
Qed.

Lemma entries_app (dd1 dd2 : report) :
  entries (dd1 ++ dd2) = entries dd1 ++ entries dd2.
Proof. unfold entries. now rewrite filter_app, flat_map_app. Qed.

Lemma sides_ok_app (dd1 dd2 : report) :
  sides_ok (dd1 ++ dd2) = sides_ok dd1 && sides_ok dd2.
Proof. unfold sides_ok. now rewrite entries_app, forallb_app. Qed.

Lemma keys_ok_app (REPORT_KEYS : list string) (dd1 dd2 : report) :
  keys_ok REPORT_KEYS (dd1 ++ dd2)
  = keys_ok REPORT_KEYS dd1 && keys_ok REPORT_KEYS dd2.
Proof. unfold keys_ok. apply forallb_app. Qed.

Lemma parse_items_returns (REPORT_KEYS : list string) (dd : report) :
  forall st res,
    parse_items REPORT_KEYS st dd = inr res ->
    keys_ok REPORT_KEYS dd = true /\ sides_ok dd = true.
Proof.
  induction dd as [|[k v] dd IH]; intros st res H; [split; reflexivity|].
  change ((k, v) :: dd) with ([(k, v)] ++ dd).
  rewrite keys_ok_app, sides_ok_app.
  cbn [app parse_items parse_item] in H.
  unfold keys_ok at 1, sides_ok at 1. rewrite entries_cons.
  unfold bears_metric, levels_of. cbn [forallb fst snd entries].
  unfold entries at 1. cbn [filter flat_map]. rewrite app_nil_r.
  destruct (String.eqb k deep_distance_key) eqn:Ek.
  - cbn [bind] in H. destruct (IH _ _ H) as [H1 H2].
    now rewrite H1, H2.
  - destruct (existsb (String.eqb k) REPORT_KEYS); [|discriminate].
    cbn [negb] in H. destruct v as [levels|x]; [|discriminate].
    destruct (parse_levels st levels) as [e|st'] eqn:El; [discriminate|].
    cbn [bind] in H. destruct (IH _ _ H) as [H1 H2].
    rewrite (parse_levels_returns _ _ _ El), H1, H2. split; reflexivity.
Qed.

(** X10: [parse_deepdiff] returns a result exactly for the reports whose
    keys other than [deep_distance] are keys of deepdiff bearing levels and
    whose entries all have a side present; on every other report it
    raises. *)
Theorem parse_deepdiff_returns_iff (REPORT_KEYS : list string) (dd : report) :
  (exists res, parse_deepdiff REPORT_KEYS dd = inr res)
  <-> keys_ok REPORT_KEYS dd = true /\ sides_ok dd = true.
Proof.
  split.
  - intros [res H]. apply (parse_items_returns _ _ _ _ H).
  - intros [Hk Hs]. eexists. apply (parse_items_absorb _ _ _ Hk Hs).
Qed.

Lemma parse_items_app (REPORT_KEYS : list string) (dd1 dd2 : report) :
  forall st,
    parse_items REPORT_KEYS st (dd1 ++ dd2)
    = (st' <- parse_items REPORT_KEYS st dd1 ;;
       parse_items REPORT_KEYS st' dd2).
Proof.
  induction dd1 as [|item dd1 IH]; intros st; [reflexivity|].
  cbn [app parse_items].
  destruct (parse_item REPORT_KEYS st item) as [e|st']; [reflexivity|].
  cbn [bind]. apply IH.
Qed.

(** X11: after a well-formed part of the report, the first item under a key
    that is neither [deep_distance] nor a key of deepdiff makes
    [parse_deepdiff] raise [AssertionError], whatever the item bears; under
    a key of deepdiff, a number instead of levels makes it raise
    [TypeError]. *)
Theorem parse_deepdiff_bad_item (REPORT_KEYS : list string)
  (pre post : report) (k : string) (v : report_value) :
  keys_ok REPORT_KEYS pre = true -> sides_ok pre = true ->
  String.eqb k deep_distance_key = false ->
  (existsb (String.eqb k) REPORT_KEYS = false ->
   parse_deepdiff REPORT_KEYS (pre ++ (k, v) :: post) = inl AssertionError)
  /\ (existsb (String.eqb k) REPORT_KEYS = true ->
      forall x, v = RNumber x ->
      parse_deepdiff REPORT_KEYS (pre ++ (k, v) :: post) = inl TypeError).
Proof.
  intros Hk Hs Hm. unfold parse_deepdiff.
  rewrite parse_items_app, (parse_items_absorb _ _ _ Hk Hs).
  cbn [bind parse_items parse_item]. rewrite Hm. split.
  - intros ->. reflexivity.
  - intros -> x ->. reflexivity.
Qed.

Lemma parse_deepdiff_bad_item_witness :
  keys_ok ["values_changed"%string]
    [("values_changed"%string,
      RLevels [mkLevel (VInt 1) (VInt 2) [KStr "b"] [KStr "b"]])] = true
  /\ sides_ok
       [("values_changed"%string,
         RLevels [mkLevel (VInt 1) (VInt 2) [KStr "b"] [KStr "b"]])] = true
  /\ String.eqb "stats" deep_distance_key = false
  /\ existsb (String.eqb "stats") ["values_changed"%string] = false
  /\ parse_deepdiff ["values_changed"%string]
       ([("values_changed"%string,
          RLevels [mkLevel (VInt 1) (VInt 2) [KStr "b"] [KStr "b"]])]
        ++ ("stats"%string, RLevels []) :: [])
     = inl AssertionError.
Proof.
  repeat (split; [reflexivity|]).
  apply (proj1 (parse_deepdiff_bad_item ["values_changed"%string]
                  [("values_changed"%string,
                    RLevels [mkLevel (VInt 1) (VInt 2) [KStr "b"] [KStr "b"]])]
                  [] "stats" (RLevels []) eq_refl eq_refl eq_refl)).
  reflexivity.
Defined.

Lemma last_app_cons {A} (l1 l2 : list A) (x d : A) :
  last (l1 ++ x :: l2) d = last (x :: l2) d.
Proof.
  induction l1 as [|a l1 IH]; [reflexivity|].
  rewrite <- IH. simpl. destruct (l1 ++ x :: l2) eqn:E; [|reflexivity].
  destruct l1; discriminate.
Qed.

Lemma metric_of_app (dd1 dd2 : report) (default : report_value) :
  metric_of (dd1 ++ dd2) default
  = if has_metric dd2 then metric_of dd2 default else metric_of dd1 default.
Proof.
  unfold metric_of, has_metric. rewrite filter_app, map_app.
  induction dd2 as [|item dd2 IH].
  - simpl. now rewrite app_nil_r.
  - cbn [filter existsb]. destruct (bears_metric item) eqn:E.
    + cbn [orb map]. apply last_app_cons.
    + cbn [orb]. exact IH.
Qed.

(** X12: parsing the concatenation of two reports that parse on their own
    gives, list by list, the paths of the first followed by the paths of
    the second; the distance is the second's when the second bears the
    metric, the first's otherwise. *)
Theorem parse_deepdiff_app (REPORT_KEYS : list string) (dd1 dd2 : report)
  (r1 r2 : parsed) :
  parse_deepdiff REPORT_KEYS dd1 = inr r1 ->
  parse_deepdiff REPORT_KEYS dd2 = inr r2 ->
  exists r,
    parse_deepdiff REPORT_KEYS (dd1 ++ dd2) = inr r
    /\ paths_added r = paths_added r1 ++ paths_added r2
    /\ paths_removed r = paths_removed r1 ++ paths_removed r2
    /\ paths_altered_1 r = paths_altered_1 r1 ++ paths_altered_1 r2
    /\ paths_altered_2 r = paths_altered_2 r1 ++ paths_altered_2 r2
    /\ leaf_paths_added r = leaf_paths_added r1 ++ leaf_paths_added r2
    /\ leaf_paths_removed r = leaf_paths_removed r1 ++ leaf_paths_removed r2
    /\ leaf_paths_altered_1 r
       = leaf_paths_altered_1 r1 ++ leaf_paths_altered_1 r2
    /\ leaf_paths_altered_2 r
       = leaf_paths_altered_2 r1 ++ leaf_paths_altered_2 r2
    /\ deep_distance r
       = if has_metric dd2 then deep_distance r2 else deep_distance r1.
Proof.
  unfold parse_deepdiff. intros H1 H2.
  destruct (parse_items_returns _ _ _ _ H1) as [Hk1 Hs1].
  destruct (parse_items_returns _ _ _ _ H2) as [Hk2 Hs2].
  rewrite (parse_items_absorb _ _ _ Hk1 Hs1) in H1.
  rewrite (parse_items_absorb _ _ _ Hk2 Hs2) in H2.
  inversion H1; subst r1; clear H1. inversion H2; subst r2; clear H2.
  assert (Hk : keys_ok REPORT_KEYS (dd1 ++ dd2) = true)
    by (now rewrite keys_ok_app, Hk1, Hk2).
  assert (Hs : sides_ok (dd1 ++ dd2) = true)
    by (now rewrite sides_ok_app, Hs1, Hs2).
  eexists. split; [apply (parse_items_absorb _ _ _ Hk Hs)|].
  cbn [with_distance absorb parsed_init deep_distance paths_added paths_removed
       paths_altered_1 paths_altered_2 leaf_paths_added leaf_paths_removed
       leaf_paths_altered_1 leaf_paths_altered_2 app].
  rewrite entries_app, !filter_app, !map_app, !flat_map_app, metric_of_app.
  repeat (split; [reflexivity|]).
  destruct (has_metric dd2); reflexivity.
Qed.

Lemma parse_deepdiff_app_witness :
  exists r,
    parse_deepdiff ["values_changed"; "iterable_item_added"]%string
      ([("deep_distance"%string, RNumber (1 # 4));
        ("values_changed"%string,
         RLevels [mkLevel (VInt 1) (VInt 2) [KStr "b"] [KStr "b"]])]
       ++ [("iterable_item_added"%string,
            RLevels [mkLevel VNotPresent (VInt 9) [KStr "c"; KInt 0]
                       [KStr "c"; KInt 1]])])
    = inr r
    /\ paths_added r = [] ++ [[KStr "c"; KInt 1]]
    /\ paths_altered_1 r = [[KStr "b"]] ++ []
    /\ deep_distance r = RNumber (1 # 4).
Proof.
  destruct (parse_deepdiff_app ["values_changed"; "iterable_item_added"]%string
              [("deep_distance"%string, RNumber (1 # 4));
               ("values_changed"%string,
                RLevels [mkLevel (VInt 1) (VInt 2) [KStr "b"] [KStr "b"]])]
              [("iterable_item_added"%string,
                RLevels [mkLevel VNotPresent (VInt 9) [KStr "c"; KInt 0]
                           [KStr "c"; KInt 1]])]
              _ _ eq_refl eq_refl)
    as [r [H [Ha [_ [H1 [_ [_ [_ [_ [_ Hd]]]]]]]]]].
  exists r. repeat split; assumption.
Defined.

(** ** More on the search of [find_best_match] *)

Lemma matrix_get_some (distance_matrix : list (list Z)) (i1 i2 d : Z) :
  matrix_get distance_matrix i1 i2 = Some d ->
  exists row, getitem distance_matrix i1 = inr row /\ getitem row i2 = inr d.
Proof.
  unfold matrix_get. destruct (getitem distance_matrix i1) as [e|row];
    [discriminate|].
  destruct (getitem row i2) as [e|d'] eqn:E; [discriminate|].
  intros H. inversion H; subst. now exists row.
Qed.

Lemma getitem_error {A} (l : list A) (i : Z) (e : exn) :
  getitem l i = inl e -> e = IndexError.
Proof.
  unfold getitem.
  destruct (_ || _); [intros H; now inversion H|].
  destruct (nth_error l _); intros H; now inversion H.
Qed.

(** The result of the search, with the least cost among the enumerated
    matches. *)
Lemma find_best_match_returns (indices1 : list Z) (indices2 : list (option Z))
  (distance_matrix : list (list Z)) :
  List.length indices1 <= List.length indices2 ->
  total_on distance_matrix indices1 indices2 ->
  exists m d,
    find_best_match indices1 indices2 distance_matrix
    = inr (dict_of_items Z.eqb (combine indices1 m))
    /\ In m (permutations indices2 (List.length indices1))
    /\ cost distance_matrix (combine indices1 m) = Some d
    /\ (forall m' d',
           In m' (permutations indices2 (List.length indices1)) ->
           cost distance_matrix (combine indices1 m') = Some d' ->
           (d <= d')%Z).
Proof.
  intros Hlen Htot.
  assert (Hdef : Forall (fun m => exists c,
                   cost distance_matrix (combine indices1 m) = Some c)
                   (permutations indices2 (List.length indices1))).
  { apply Forall_forall. intros m Hm.
    apply permutations_sound in Hm. destruct Hm as [_ Hs].
    apply (cost_defined _ indices1 indices2 m Htot), selection_incl, Hs. }
  destruct (search_spec indices1 distance_matrix _ Hdef Inf None)
    as [[_ Hall] | Himp].
  - exfalso. pose proof (permutations_nonempty indices2 _ Hlen) as Hne.
    destruct (permutations indices2 (List.length indices1)) as [|m0 ms];
      [congruence|].
    inversion Hall as [|? ? H0 _]; subst.
    inversion Hdef as [|? ? [c Hc] _]; subst.
    specialize (H0 c Hc). discriminate.
  - destruct Himp as [pre [m [post [d [E [Hs [Hd [_ [Hpre Hpost]]]]]]]]].
    exists m, d.
    split; [unfold find_best_match; rewrite Hs; reflexivity|].
    split; [rewrite E; apply in_or_app; right; now left|].
    split; [exact Hd|].
    intros m' d' Hin Hd'. rewrite E in Hin. apply in_split_cases in Hin.
    rewrite Forall_forall in Hpre, Hpost.
    destruct Hin as [Hin | [-> | Hin]].
    + specialize (Hpre _ Hin _ Hd'). lia.
    + rewrite Hd in Hd'. inversion Hd'. lia.
    + exact (Hpost _ Hin _ Hd').
Qed.

(** X13: when the two index lists have the same length (and the matrix has
    every needed entry), the match [find_best_match] pairs with [indices1]
    is a rearrangement of [indices2]: every element of [indices2] is used,
    and used once. *)
Theorem find_best_match_square (indices1 : list Z) (indices2 : list (option Z))
  (distance_matrix : list (list Z)) :
  List.length indices1 = List.length indices2 ->
  total_on distance_matrix indices1 indices2 ->
  exists m,
    find_best_match indices1 indices2 distance_matrix
    = inr (dict_of_items Z.eqb (combine indices1 m))
    /\ Permutation indices2 m.
Proof.
  intros Hlen Htot.
  destruct (find_best_match_returns indices1 indices2 distance_matrix)
    as [m [d [H [Hin _]]]]; [lia | exact Htot |].
  exists m. split; [exact H|].
  apply permutations_sound in Hin. destruct Hin as [Hl [unused Hu]].
  pose proof (Permutation_length Hu) as Hn. rewrite length_app in Hn.
  destruct unused as [|x unused]; [|simpl in Hn; lia].
  now rewrite app_nil_r in Hu.
Qed.

Lemma find_best_match_square_witness :
  List.length [0; 1]%Z = List.length [Some 1; None]%Z
  /\ total_on [[1; 5]; [5; 1]]%Z [0; 1]%Z [Some 1; None]%Z
  /\ exists m,
       find_best_match [0; 1]%Z [Some 1; None]%Z [[1; 5]; [5; 1]]%Z
       = inr (dict_of_items Z.eqb (combine [0; 1]%Z m))
       /\ Permutation [Some 1; None]%Z m.
Proof.
  assert (Htot : total_on [[1; 5]; [5; 1]]%Z [0; 1]%Z [Some 1; None]%Z).
  { intros i1 i2 H1 H2. simpl in H1, H2.
    destruct H1 as [<- | [<- | []]];
      destruct H2 as [H2 | [H2 | []]];
      inversion H2; subst; eexists; eexists; split; reflexivity. }
  split; [reflexivity|]. split; [exact Htot|].
  apply (find_best_match_square [0; 1]%Z [Some 1; None]%Z [[1; 5]; [5; 1]]%Z);
    [reflexivity | exact Htot].
Defined.

Lemma cost_bounds (distance_matrix : list (list Z))
  (pairs : list (Z * option Z)) :
  Forall (fun p => forall i2, snd p = Some i2 ->
            exists d, matrix_get distance_matrix (fst p) i2 = Some d
                      /\ (0 < d)%Z) pairs ->
  forall c,
    cost distance_matrix pairs = Some c ->
    (0 <= c)%Z /\ (c = 0%Z -> Forall (fun p => snd p = None) pairs).
Proof.
  induction 1 as [|[i1 [i2|]] pairs Hp _ IH]; intros c Hc; simpl in Hc.
  - inversion Hc; subst. split; [lia | constructor].
  - destruct (Hp i2 eq_refl) as [d [Hd Hpos]]. simpl in Hd.
    destruct (matrix_get_some _ _ _ _ Hd) as [row [Hr Hg]].
    rewrite Hr, Hg in Hc.
    destruct (cost distance_matrix pairs) as [c'|]; [|discriminate].
    inversion Hc; subst. destruct (IH c' eq_refl) as [H0 _].
    split; [lia | intros; lia].
  - destruct (IH c Hc) as [H0 H1]. split; [exact H0|].
    intros E. constructor; [reflexivity | now apply H1].
Qed.

Lemma cost_unmatched (distance_matrix : list (list Z)) (indices1 : list Z) :
  forall n,
    cost distance_matrix (combine indices1 (repeat None n)) = Some 0%Z.
Proof.
  induction indices1 as [|i1 indices1 IH]; intros [|n]; try reflexivity.
  simpl. apply IH.
Qed.

Lemma all_unmatched (indices1 : list Z) :
  forall m : list (option Z),
    List.length m = List.length indices1 ->
    Forall (fun p => snd p = None) (combine indices1 m) ->
    m = repeat None (List.length indices1).
Proof.
  induction indices1 as [|i1 indices1 IH]; intros [|x m] Hl H;
    simpl in *; try discriminate; [reflexivity|].
  inversion H as [|? ? Hx Hm]; subst. simpl in Hx. subst.
  f_equal. apply IH; [lia | exact Hm].
Qed.

Lemma positive_on_total (distance_matrix : list (list Z)) (indices1 : list Z)
  (indices2 : list (option Z)) :
  positive_on distance_matrix indices1 indices2 ->
  total_on distance_matrix indices1 indices2.
Proof.
  intros H i1 i2 H1 H2. destruct (H i1 i2 H1 H2) as [d [Hd _]].
  destruct (matrix_get_some _ _ _ _ Hd) as [row [Hr Hg]]. now exists row, d.
Qed.

(** X14: when [indices2] holds at least [len(indices1)] placeholders and
    every distance that can be needed is positive, [find_best_match] leaves
    every index of [indices1] unmatched: the all-placeholder match costs 0
    and every match with a real pair costs more. *)
Theorem find_best_match_all_unmatched (indices1 : list Z)
  (indices2 : list (option Z)) (distance_matrix : list (list Z)) :
  selection indices2 (repeat None (List.length indices1)) ->
  positive_on distance_matrix indices1 indices2 ->
  find_best_match indices1 indices2 distance_matrix
  = inr (dict_of_items Z.eqb
           (combine indices1 (repeat None (List.length indices1)))).
Proof.
  intros Hsel Hpos.
  assert (Hlen : List.length indices1 <= List.length indices2).
  { destruct Hsel as [unused Hu]. apply Permutation_length in Hu.
    rewrite length_app, repeat_length in Hu. lia. }
  destruct (find_best_match_returns indices1 indices2 distance_matrix Hlen
              (positive_on_total _ _ _ Hpos)) as [m [d [H [Hin [Hd Hmin]]]]].
  rewrite H. do 2 f_equal.
  assert (H0 : In (repeat None (List.length indices1))
                 (permutations indices2 (List.length indices1))).
  { apply permutations_complete; [apply repeat_length | exact Hsel]. }
  pose proof (Hmin _ _ H0 (cost_unmatched _ _ _)) as Hle.
  apply permutations_sound in Hin. destruct Hin as [Hl Hs].
  assert (Hp : Forall (fun p => forall i2, snd p = Some i2 ->
                 exists d, matrix_get distance_matrix (fst p) i2 = Some d
                           /\ (0 < d)%Z) (combine indices1 m)).
  { apply Forall_forall. intros [i1 x] Hp i2 E. simpl in E. subst x. simpl.
    apply Hpos; [exact (in_combine_l _ _ _ _ Hp)|].
    apply (selection_incl _ _ Hs), (in_combine_r _ _ _ _ Hp). }
  destruct (cost_bounds _ _ Hp d Hd) as [Hge Hz].
  f_equal. apply all_unmatched; [exact Hl | apply Hz; lia].
Qed.

Lemma find_best_match_all_unmatched_witness :
  selection [Some 1; None; Some 0; None]%Z (repeat None (List.length [0; 1]%Z))
  /\ positive_on [[1; 5]; [5; 1]]%Z [0; 1]%Z [Some 1; None; Some 0; None]%Z
  /\ find_best_match [0; 1]%Z [Some 1; None; Some 0; None]%Z [[1; 5]; [5; 1]]%Z
     = inr [(0, None); (1, None)]%Z.
Proof.
  assert (Hsel : selection [Some 1; None; Some 0; None]%Z
                   (repeat None (List.length [0; 1]%Z))).
  { exists [Some 1; Some 0]%Z. simpl.
    apply Permutation_sym.
    apply (Permutation_trans (l' := [None; Some 1; None; Some 0]%Z)).
    - apply perm_skip, perm_swap.
    - apply (Permutation_trans (l' := [Some 1; None; None; Some 0]%Z)).
      + apply perm_swap.
      + do 2 apply perm_skip. apply perm_swap. }
  assert (Hpos : positive_on [[1; 5]; [5; 1]]%Z [0; 1]%Z
                   [Some 1; None; Some 0; None]%Z).
  { intros i1 i2 H1 H2. simpl in H1, H2.
    destruct H1 as [<- | [<- | []]];
      destruct H2 as [H2 | [H2 | [H2 | [H2 | []]]]];
      inversion H2; subst; eexists; (split; [reflexivity | lia]). }
  split; [exact Hsel|]. split; [exact Hpos|].
  apply (find_best_match_all_unmatched [0; 1]%Z
           [Some 1; None; Some 0; None]%Z [[1; 5]; [5; 1]]%Z Hsel Hpos).
Defined.

(** ** A missing matrix entry *)

Lemma cost_missing (distance_matrix : list (list Z))
  (pairs : list (Z * option Z)) (i1 i2 : Z) :
  In (i1, Some i2) pairs -> matrix_get distance_matrix i1 i2 = None ->
  cost distance_matrix pairs = None.
Proof.
  intros Hin Hm. induction pairs as [|[a [b|]] pairs IH]; simpl.
  - contradiction.
  - destruct Hin as [E | Hin].
    + inversion E; subst. unfold matrix_get in Hm.
      destruct (getitem distance_matrix i1) as [e|row]; [reflexivity|].
      destruct (getitem row i2); [reflexivity | discriminate].
    + rewrite (IH Hin).
      destruct (getitem distance_matrix a) as [e|row]; [reflexivity|].
      destruct (getitem row b); reflexivity.
  - destruct Hin as [E | Hin]; [discriminate | now apply IH].
Qed.

Lemma match_distance_missing (distance_matrix : list (list Z))
  (pairs : list (Z * option Z)) :
  cost distance_matrix pairs = None ->
  forall acc, match_distance distance_matrix pairs acc = inl IndexError.
Proof.
  induction pairs as [|[a [b|]] pairs IH]; simpl; intros H acc.
  - discriminate.
  - destruct (getitem distance_matrix a) as [e|row] eqn:Er.
    + now rewrite (getitem_error _ _ _ Er).
    + cbn [bind]. destruct (getitem row b) as [e|d] eqn:Ed.
      * now rewrite (getitem_error _ _ _ Ed).
      * cbn [bind]. apply IH.
        destruct (cost distance_matrix pairs); [discriminate | reflexivity].
  - now apply IH.
Qed.

Lemma search_missing (indices1 : list Z) (distance_matrix : list (list Z))
  (match_space : list (list (option Z))) (m : list (option Z)) :
  In m match_space ->
  cost distance_matrix (combine indices1 m) = None ->
  forall best sol,
    search indices1 distance_matrix match_space best sol = inl IndexError.
Proof.
  intros Hin Hm. induction match_space as [|m0 space IH]; intros best sol.
  - contradiction.
  - cbn [search].
    destruct (cost distance_matrix (combine indices1 m0)) as [c|] eqn:Ec.
    + rewrite (match_distance_cost _ _ 0%Z c Ec). cbn [bind].
      assert (Hin' : In m space).
      { destruct Hin as [-> | Hin]; [congruence | exact Hin]. }
      destruct (dist_ltb (0 + c) best); now apply IH.
    + now rewrite (match_distance_missing _ _ Ec).
Qed.

Lemma combine_app_same {A B} (x1 x2 : list A) (y1 y2 : list B) :
  List.length x1 = List.length y1 ->
  combine (x1 ++ x2) (y1 ++ y2) = combine x1 y1 ++ combine x2 y2.
Proof.
  revert y1; induction x1 as [|a x1 IH]; intros [|b y1] H; simpl in *;
    try discriminate; [reflexivity|].
  f_equal. apply IH. lia.
Qed.

(** Some enumerated match pairs a given element of the first list with a
    given element of the pool. *)
Lemma match_with_pair {A B} (l1 : list A) (pool : list B) (a : A) (b : B) :
  List.length l1 <= List.length pool -> In a l1 -> In b pool ->
  exists m,
    In m (permutations pool (List.length l1)) /\ In (a, b) (combine l1 m).
Proof.
  intros Hlen Ha Hb.
  apply in_split in Ha. destruct Ha as [a1 [a2 ->]].
  apply in_split in Hb. destruct Hb as [b1 [b2 ->]].
  rewrite !length_app in Hlen. simpl in Hlen.
  set (rest := b1 ++ b2).
  assert (Hrest : List.length a1 + List.length a2 <= List.length rest).
  { unfold rest. rewrite length_app. lia. }
  set (k := List.length a1). fold k in Hrest.
  exists (firstn k rest ++ b :: firstn (List.length a2) (skipn k rest)).
  assert (Hk : List.length (firstn k rest) = k).
  { rewrite length_firstn. lia. }
  split.
  - apply permutations_complete.
    + rewrite !length_app. simpl. rewrite Hk, length_firstn, length_skipn.
      fold k. lia.
    + exists (skipn (List.length a2) (skipn k rest)).
      rewrite <- app_assoc. simpl. rewrite firstn_skipn.
      apply Permutation_trans with (l' := b :: rest).
      * apply Permutation_sym, Permutation_middle.
      * rewrite <- (firstn_skipn k rest) at 1. apply Permutation_middle.
  - rewrite combine_app_same by (now rewrite Hk).
    apply in_or_app. right. now left.
Qed.

(** X15: when [indices2] is long enough but the matrix has no entry for
    some index of [indices1] and some proper index of [indices2],
    [find_best_match] raises [IndexError] and returns no assignment: every
    pairing is tried, so the missing entry is always reached. *)
Theorem find_best_match_missing_entry (indices1 : list Z)
  (indices2 : list (option Z)) (distance_matrix : list (list Z))
  (i1 i2 : Z) :
  List.length indices1 <= List.length indices2 ->
  In i1 indices1 -> In (Some i2) indices2 ->
  matrix_get distance_matrix i1 i2 = None ->
  find_best_match indices1 indices2 distance_matrix = inl IndexError.
Proof.
  intros Hlen H1 H2 Hm.
  destruct (match_with_pair indices1 indices2 i1 (Some i2) Hlen H1 H2)
    as [m [Hin Hp]].
  unfold find_best_match.
  rewrite (search_missing indices1 distance_matrix _ m Hin
             (cost_missing _ _ _ _ Hp Hm)).
  reflexivity.
Qed.

Lemma find_best_match_missing_entry_witness :
  List.length [0; 1]%Z <= List.length [Some 0; None; Some 2]%Z
  /\ In 1%Z [0; 1]%Z
  /\ In (Some 2%Z) [Some 0; None; Some 2]%Z
  /\ matrix_get [[1; 5]; [5; 1]]%Z 1 2 = None
  /\ find_best_match [0; 1]%Z [Some 0; None; Some 2]%Z [[1; 5]; [5; 1]]%Z
     = inl IndexError.
Proof.
  split; [simpl; lia|]. split; [simpl; tauto|]. split; [simpl; tauto|].
  split; [reflexivity|].
  apply (find_best_match_missing_entry [0; 1]%Z [Some 0; None; Some 2]%Z
           [[1; 5]; [5; 1]]%Z 1%Z 2%Z);
    [simpl; lia | simpl; tauto | simpl; tauto | reflexivity].
Defined.

(** ** [flat_list_of_lists] *)

Lemma index_eqb_eq (a b : nat * nat) : index_eqb a b = true <-> a = b.
Proof.
  destruct a as [a1 a2], b as [b1 b2]. unfold index_eqb. simpl.
  rewrite andb_true_iff, !Nat.eqb_eq. split.
  - intros [-> ->]. reflexivity.
  - intros E. inversion E. split; reflexivity.
Qed.

Lemma in_row_entries (i j base len : nat) (k : nat * nat) :
  In k (keys (row_entries i j base len)) ->
  fst k = i /\ j <= snd k < j + len.
Proof.
  revert j base; induction len as [|len IH]; intros j base H; simpl in H.
  - contradiction.
  - destruct H as [<- | H]; [simpl; lia|].
    destruct (IH _ _ H) as [H1 H2]. lia.
Qed.

Lemma flat_inner_spec {A} (i : nat) (sub_list : list A) :
  forall j flat m n,
    (forall j', j <= j' -> ~ In (i, j') (keys m)) ->
    flat_inner i j sub_list (flat, m, n)
    = (flat ++ sub_list,
       m ++ row_entries i j n (List.length sub_list),
       n + List.length sub_list).
Proof.
  induction sub_list as [|item rest IH]; intros j flat m n Hfresh.
  - simpl. now rewrite !app_nil_r, Nat.add_0_r.
  - cbn [flat_inner].
    rewrite (dict_set_fresh index_eqb index_eqb_eq m (i, j) n)
      by (apply Hfresh; lia).
    rewrite IH.
    + simpl. rewrite <- !app_assoc. simpl.
      replace (n + 1) with (S n) by lia.
      now replace (S n + List.length rest) with (n + S (List.length rest))
        by lia.
    + intros j' Hj' Hin. unfold keys in Hin. rewrite map_app in Hin.
      apply in_app_or in Hin. destruct Hin as [Hin | [E | []]].
      * apply (Hfresh j'); [lia | exact Hin].
      * simpl in E. inversion E. lia.
Qed.

Lemma in_lol_entries {A} (lol : list (list A)) :
  forall i base k, In k (keys (lol_entries i base lol)) -> i <= fst k.
Proof.
  induction lol as [|sub_list rest IH]; intros i base k H; simpl in H.
  - contradiction.
  - unfold keys in H. rewrite map_app in H. apply in_app_or in H.
    destruct H as [H | H].
    + apply in_row_entries in H. lia.
    + apply IH in H. lia.
Qed.

Lemma flat_outer_spec {A} (lol : list (list A)) :
  forall i flat m n,
    (forall k, In k (keys m) -> fst k < i) ->
    flat_outer i lol (flat, m, n)
    = (flat ++ List.concat lol,
       m ++ lol_entries i n lol,
       n + List.length (List.concat lol)).
Proof.
  induction lol as [|sub_list rest IH]; intros i flat m n Hfresh.
  - simpl. now rewrite !app_nil_r, Nat.add_0_r.
  - cbn [flat_outer]. rewrite flat_inner_spec.
    + rewrite IH.
      * simpl. rewrite <- !app_assoc, length_app. f_equal. lia.
      * intros k Hk. unfold keys in Hk. rewrite map_app in Hk.
        apply in_app_or in Hk. destruct Hk as [Hk | Hk].
        -- apply Hfresh in Hk. lia.
        -- apply in_row_entries in Hk. lia.
    + intros j' _ Hin. apply Hfresh in Hin. simpl in Hin. lia.
Qed.

Lemma flat_list_of_lists_spec {A} (lol : list (list A)) :
  flat_list_of_lists lol = (List.concat lol, lol_entries 0 0 lol).
Proof.
  unfold flat_list_of_lists.
  rewrite (flat_outer_spec lol 0 [] [] 0) by (intros k []). reflexivity.
Qed.

Lemma dict_get_row_entries (i len : nat) (rest : list ((nat * nat) * nat))
  (i' j : nat) :
  forall j0 base,
    dict_get index_eqb (row_entries i j0 base len ++ rest) (i', j)
    = if (i' =? i) && (j0 <=? j) && (j <? j0 + len)
      then Some (base + (j - j0))
      else dict_get index_eqb rest (i', j).
Proof.
  induction len as [|len IH]; intros j0 base.
  - simpl. replace (j <? j0 + 0) with (j <? j0) by (f_equal; lia).
    destruct (i' =? i); [|reflexivity].
    destruct (j0 <=? j) eqn:E1; [|reflexivity].
    destruct (j <? j0) eqn:E2; [|reflexivity].
    apply Nat.leb_le in E1. apply Nat.ltb_lt in E2. lia.
  - cbn [row_entries app dict_get]. unfold index_eqb at 1. cbn [fst snd].
    rewrite (Nat.eqb_sym i i').
    destruct (i' =? i) eqn:Ei; cbn [andb].
    + destruct (j0 =? j) eqn:Ej.
      * apply Nat.eqb_eq in Ej. subst j0.
        rewrite Nat.leb_refl. cbn [andb].
        replace (j <? j + S len) with true
          by (symmetry; apply Nat.ltb_lt; lia).
        f_equal. lia.
      * rewrite IH. cbn [andb]. apply Nat.eqb_neq in Ej.
        assert (Hc : (S j0 <=? j) && (j <? S j0 + len)
                     = (j0 <=? j) && (j <? j0 + S len)).
        { apply eq_true_iff_eq.
          rewrite !andb_true_iff, !Nat.leb_le, !Nat.ltb_lt. lia. }
        rewrite Hc.
        destruct ((j0 <=? j) && (j <? j0 + S len)) eqn:E; [|reflexivity].
        apply andb_true_iff in E. destruct E as [E _].
        apply Nat.leb_le in E. f_equal. lia.
    + rewrite IH. reflexivity.
Qed.

Lemma dict_get_lol_entries {A} (lol : list (list A)) (j : nat) :
  forall i0 base i,
    dict_get index_eqb (lol_entries i0 base lol) (i0 + i, j)
    = match lol_get lol i j with
      | Some _ => Some (base + flat_position lol i j)
      | None => None
      end.
Proof.
  induction lol as [|sub_list rest IH]; intros i0 base i.
  - unfold lol_get. simpl. now destruct i.
  - cbn [lol_entries]. rewrite dict_get_row_entries.
    destruct i as [|i].
    + rewrite Nat.add_0_r, Nat.eqb_refl. cbn [andb Nat.leb Nat.add].
      unfold lol_get, flat_position. cbn [nth_error firstn List.concat].
      destruct (j <? List.length sub_list) eqn:Ej.
      * apply Nat.ltb_lt in Ej.
        destruct (nth_error sub_list j) eqn:En.
        -- simpl. f_equal. lia.
        -- apply nth_error_None in En. lia.
      * apply Nat.ltb_ge in Ej.
        rewrite (proj2 (nth_error_None sub_list j) Ej).
        destruct (dict_get index_eqb
                    (lol_entries (S i0) (base + List.length sub_list) rest)
                    (i0, j)) eqn:Eg; [|reflexivity].
        apply (dict_get_some_in index_eqb index_eqb_eq) in Eg.
        apply (in_map fst) in Eg. apply in_lol_entries in Eg.
        simpl in Eg. lia.
    + replace (i0 + S i =? i0) with false
        by (symmetry; apply Nat.eqb_neq; lia).
      cbn [andb]. replace (i0 + S i) with (S i0 + i) by lia.
      rewrite IH. unfold lol_get, flat_position.
      cbn [nth_error firstn List.concat].
      destruct (nth_error rest i) as [sub|]; [|reflexivity].
      destruct (nth_error sub j); [|reflexivity].
      rewrite length_app. f_equal. lia.
Qed.

Lemma nth_error_flat_position {A} (lol : list (list A)) (j : nat) (x : A) :
  forall i,
    lol_get lol i j = Some x ->
    nth_error (List.concat lol) (flat_position lol i j) = Some x.
Proof.
  induction lol as [|sub_list rest IH]; intros i H.
  - unfold lol_get in H. destruct i; discriminate.
  - unfold lol_get in H. destruct i as [|i]; cbn [nth_error] in H.
    + unfold flat_position. cbn [firstn List.concat List.length Nat.add].
      rewrite nth_error_app1; [exact H|].
      apply nth_error_Some. congruence.
    + unfold flat_position. cbn [firstn List.concat].
      rewrite length_app, <- Nat.add_assoc.
      rewrite nth_error_app2 by lia.
      replace (List.length sub_list
               + (List.length (List.concat (firstn i rest)) + j)
               - List.length sub_list)
        with (flat_position rest i j) by (unfold flat_position; lia).
      apply IH. exact H.
Qed.

Lemma values_row_entries (i len : nat) :
  forall j base, map snd (row_entries i j base len) = seq base len.
Proof.
  induction len as [|len IH]; intros j base; [reflexivity|].
  simpl. now rewrite IH.
Qed.

Lemma values_lol_entries {A} (lol : list (list A)) :
  forall i base,
    map snd (lol_entries i base lol)
    = seq base (List.length (List.concat lol)).
Proof.
  induction lol as [|sub_list rest IH]; intros i base; [reflexivity|].
  cbn [lol_entries List.concat].
  now rewrite map_app, values_row_entries, IH, length_app, seq_app.
Qed.

Example flat_list_of_lists_ex :
  flat_list_of_lists [[VInt 5; VInt 6]; []; [VInt 7]]
  = ([VInt 5; VInt 6; VInt 7], [((0, 0), 0); ((0, 1), 1); ((2, 0), 2)]).
Proof. reflexivity. Qed.

(** X16: the flat list is the concatenation of the sub-lists, in order, and
    the map has one entry for each of its positions: read in insertion
    order, the values of the map are [0, 1, ..., len(flat) - 1]. *)
Theorem flat_list_of_lists_flat {A} (lol : list (list A)) :
  fst (flat_list_of_lists lol) = List.concat lol
  /\ map snd (snd (flat_list_of_lists lol))
     = seq 0 (List.length (fst (flat_list_of_lists lol))).
Proof.
  rewrite flat_list_of_lists_spec. split; [reflexivity|].
  apply values_lol_entries.
Qed.

(** X17: the map sends the index pair of every item to the position of
    that item in the flat list: if [lol[i][j]] is [x], the map holds
    [(i, j)], and the flat list holds [x] at the position it gives, which is
    the number of items in the rows before row [i], plus [j]. *)
Theorem flat_list_of_lists_lookup {A} (lol : list (list A)) (i j : nat)
  (x : A) :
  lol_get lol i j = Some x ->
  dict_get index_eqb (snd (flat_list_of_lists lol)) (i, j)
  = Some (flat_position lol i j)
  /\ nth_error (fst (flat_list_of_lists lol)) (flat_position lol i j)
     = Some x.
Proof.
  intros H. rewrite flat_list_of_lists_spec. cbn [fst snd]. split.
  - pose proof (dict_get_lol_entries lol j 0 0 i) as G.
    rewrite H in G. exact G.
  - now apply nth_error_flat_position.
Qed.

Lemma flat_list_of_lists_lookup_witness :
  lol_get [[VInt 5; VInt 6]; []; [VInt 7; VInt 8]] 2 1 = Some (VInt 8)
  /\ dict_get index_eqb
       (snd (flat_list_of_lists [[VInt 5; VInt 6]; []; [VInt 7; VInt 8]]))
       (2, 1)
     = Some 3
  /\ nth_error (fst (flat_list_of_lists [[VInt 5; VInt 6]; []; [VInt 7; VInt 8]]))
       3
     = Some (VInt 8).
Proof.
  split; [reflexivity|].
  apply (flat_list_of_lists_lookup [[VInt 5; VInt 6]; []; [VInt 7; VInt 8]]
           2 1 (VInt 8)).
  reflexivity.
Defined.

(** X18: the map holds no other key: an index pair that names no item of
    [lol] (a row that does not exist, or a column past the end of its row)
    is not a key of the map. *)
Theorem flat_list_of_lists_missing {A} (lol : list (list A)) (i j : nat) :
  lol_get lol i j = None ->
  dict_get index_eqb (snd (flat_list_of_lists lol)) (i, j) = None.
Proof.
  intros H. rewrite flat_list_of_lists_spec. cbn [fst snd].
  pose proof (dict_get_lol_entries lol j 0 0 i) as G.
  rewrite H in G. exact G.
Qed.

Lemma flat_list_of_lists_missing_witness :
  lol_get [[VInt 5; VInt 6]; []; [VInt 7]] 1 0 = None
  /\ dict_get index_eqb
       (snd (flat_list_of_lists [[VInt 5; VInt 6]; []; [VInt 7]])) (1, 0)
     = None.
Proof.
  split; [reflexivity|].
  apply (flat_list_of_lists_missing [[VInt 5; VInt 6]; []; [VInt 7]] 1 0).
  reflexivity.
Defined.

(** ** [flatten] and the order of the items *)

Lemma wf_dict_perm (d1 d2 : list (key * value)) :
  Permutation d1 d2 -> wf_dict d1 = true -> wf_dict d2 = true.
Proof.
  intros Hp Hwf. destruct (wf_value_dict d1 Hwf) as [Hk Hvs].
  unfold wf_dict. cbn [wf_value]. apply andb_true_iff. split.
  - apply distinct_keys_nodup.
    apply (Permutation_NoDup (Permutation_map fst Hp) Hk).
  - apply forallb_forall. intros kv Hkv. rewrite Forall_forall in Hvs.
    apply Hvs. apply (Permutation_in kv (Permutation_sym Hp) Hkv).
Qed.

(** X19: the flattening does not depend on the order of the items of the
    top-level dictionary: two well-formed dictionaries with the same items
    in a different order flatten to the same entries, in a different
    order. *)
Theorem flatten_permutation (d1 d2 : list (key * value)) :
  wf_dict d1 = true -> Permutation d1 d2 ->
  Permutation (flatten d1 None) (flatten d2 None).
Proof.
  intros Hwf Hp.
  rewrite (flatten_leaves d1 Hwf), (flatten_leaves d2 (wf_dict_perm _ _ Hp Hwf)).
  now apply Permutation_flat_map.
Qed.

Lemma flatten_permutation_witness :
  wf_dict [(KStr "a", VList [VInt 1]); (KStr "b", VDict [])] = true
  /\ Permutation [(KStr "a", VList [VInt 1]); (KStr "b", VDict [])]
       [(KStr "b", VDict []); (KStr "a", VList [VInt 1])]
  /\ Permutation
       (flatten [(KStr "a", VList [VInt 1]); (KStr "b", VDict [])] None)
       (flatten [(KStr "b", VDict []); (KStr "a", VList [VInt 1])] None).
Proof.
  split; [reflexivity|]. split; [apply perm_swap|].
  apply (flatten_permutation
           [(KStr "a", VList [VInt 1]); (KStr "b", VDict [])]
           [(KStr "b", VDict []); (KStr "a", VList [VInt 1])]);
    [reflexivity | apply perm_swap].
Defined.

Lemma parse_deepdiff_returns_iff_witness :
  keys_ok ["dictionary_item_removed"%string]
    [("dictionary_item_removed"%string,
      RLevels [mkLevel (VDict []) VNotPresent [KStr "a"] [KStr "a"]])] = true
  /\ sides_ok
       [("dictionary_item_removed"%string,
         RLevels [mkLevel (VDict []) VNotPresent [KStr "a"] [KStr "a"]])] = true
  /\ exists res,
       parse_deepdiff ["dictionary_item_removed"%string]
         [("dictionary_item_removed"%string,
           RLevels [mkLevel (VDict []) VNotPresent [KStr "a"] [KStr "a"]])]
       = inr res.
Proof.
  split; [reflexivity|]. split; [reflexivity|].
  apply (proj2 (parse_deepdiff_returns_iff ["dictionary_item_removed"%string]
                  [("dictionary_item_removed"%string,
                    RLevels [mkLevel (VDict []) VNotPresent
                               [KStr "a"] [KStr "a"]])])).
  split; reflexivity.
Defined.

(** ** [find_best_match] on integers and on floats *)

Lemma match_distance_with_Z (distance_matrix : list (list Z))
  (pairs : list (Z * option Z)) :
  forall acc,
    match_distance_with Z Z.add distance_matrix pairs acc
    = match_distance distance_matrix pairs acc.
Proof.
  induction pairs as [|[i1 [i2|]] pairs IH]; intros acc; simpl;
    [reflexivity | | apply IH].
  destruct (getitem distance_matrix i1) as [e|row]; [reflexivity|]. simpl.
  destruct (getitem row i2) as [e|d]; [reflexivity|]. simpl. apply IH.
Qed.

Lemma search_with_Z (indices1 : list Z) (distance_matrix : list (list Z))
  (match_space : list (list (option Z))) :
  forall best sol,
    search_with Z 0%Z Z.add Z.ltb (fun _ => true) indices1 distance_matrix
      match_space (best_of_dist best) sol
    = match search indices1 distance_matrix match_space best sol with
      | inl e => inl e
      | inr st => inr (best_of_dist (fst st), snd st)
      end.
Proof.
  induction match_space as [|m rest IH]; intros best sol; [reflexivity|].
  cbn [search_with search]. rewrite match_distance_with_Z.
  destruct (match_distance distance_matrix (combine indices1 m) 0%Z)
    as [e|d]; [reflexivity|].
  cbn [bind].
  replace (best_ltb Z Z.ltb (fun _ => true) d (best_of_dist best))
    with (dist_ltb d best) by (now destruct best).
  destruct (dist_ltb d best); [apply (IH (Fin d)) | apply IH].
Qed.

(** On a matrix of integers the loops over any numbers are the loops of
    [find_best_match]. *)
Lemma find_best_match_with_Z (indices1 : list Z) (indices2 : list (option Z))
  (distance_matrix : list (list Z)) :
  find_best_match_with Z 0%Z Z.add Z.ltb (fun _ => true)
    indices1 indices2 distance_matrix
  = find_best_match indices1 indices2 distance_matrix.
Proof.
  unfold find_best_match_with, find_best_match.
  rewrite (search_with_Z indices1 distance_matrix _ Inf None).
  destruct (search indices1 distance_matrix
              (permutations indices2 (List.length indices1)) Inf None)
    as [e|[d sol]]; reflexivity.
Qed.





Example exact_value_ex :
  match exact_value 0x1.8p-1, exact_value 3 with
  | Some a, Some b => (a == 3 # 4)%Q /\ (b == 3 # 1)%Q
  | _, _ => False
  end
  /\ exact_value infinity = None.
Proof. vm_compute. repeat split. Qed.

Example tie_matrix_costs :
  exists c1 c2,
    exact_cost tie_matrix (combine [0; 1; 2]%Z [Some 0; Some 1; Some 2]%Z)
    = Some c1
    /\ exact_cost tie_matrix (combine [0; 1; 2]%Z [Some 2; Some 1; Some 0]%Z)
       = Some c2
    /\ (c1 == c2)%Q.
Proof. eexists. eexists. split; [|split]; vm_compute; reflexivity. Qed.

Example absorbing_matrix_costs :
  exists c1 c2,
    exact_cost absorbing_matrix (combine [0; 1]%Z [Some 0; Some 1]%Z) = Some c1
    /\ exact_cost absorbing_matrix (combine [0; 1]%Z [Some 1; Some 0]%Z)
       = Some c2
    /\ (c2 < c1)%Q.
Proof. eexists. eexists. split; [|split]; vm_compute; reflexivity. Qed.

